(** * CPU scheduling simulator: processes, FCFS / Round-Robin planners, metrics.

    Shallow embedding of [src/proceso.py], [src/scheduler.py] and
    [src/metrics.py].

    Conventions of the embedding.
    - Python integers are unbounded, hence [Z].  A [bool] is an [int] in
      Python ([isinstance(True, int)] holds); a stored field keeps only the
      integer value.
    - Text is [string]; [str.strip] and blank tests are modelled on ASCII
      white space.
    - A raised exception is a value of [exn] carried by [result].
    - [deepcopy] of a process is the identity on the record value; the
      objects shared between [procesos_copia] and [cola] in Round-Robin are
      a store (the list [procesos_copia], addressed by position) and a queue
      of positions.
    - [sum(xs) / n] is the exact rational quotient (the rounding of the
      Python float is not modelled). *)

From Stdlib Require Import ZArith QArith Qcanon String Ascii List Sorted Lia.
From stdpp Require Import numbers strings gmap fin_maps list.

Open Scope Z_scope.

(** ** Python values and exceptions *)

Inductive PyVal : Type :=
  | PyNone
  | PyBool (b : bool)
  | PyInt (z : Z)
  | PyStr (s : string).

Inductive exn : Type :=
  | ValueError (msg : string)
  | TypeError
  | KeyError (key : string)
  | IndexError.

Inductive result (A : Type) : Type :=
  | Ok (a : A)
  | Raise (e : exn).
Arguments Ok {A} a.
Arguments Raise {A} e.

Definition bind {A B} (r : result A) (k : A -> result B) : result B :=
  match r with
  | Ok a => k a
  | Raise e => Raise e
  end.

Notation "x <-- r ;; k" := (bind r (fun x => k))
  (at level 100, r at next level, right associativity).

(** [isinstance(v, int)], giving the integer value when it holds. *)
Definition as_int (v : PyVal) : option Z :=
  match v with
  | PyInt z => Some z
  | PyBool b => Some (if b then 1 else 0)
  | _ => None
  end.

(** [isinstance(v, str)], giving the text when it holds. *)
Definition as_str (v : PyVal) : option string :=
  match v with
  | PyStr s => Some s
  | _ => None
  end.

(** Truth value of [v] as used by [not v]. *)
Definition truthy (v : PyVal) : bool :=
  match v with
  | PyNone => false
  | PyBool b => b
  | PyInt z => negb (z =? 0)
  | PyStr s => negb (String.eqb s "")
  end.

(** White space of [str.isspace] among the ASCII characters. *)
Definition is_space (c : ascii) : bool :=
  let n := nat_of_ascii c in
  ((9 <=? n)%nat && (n <=? 13)%nat) || ((28 <=? n)%nat && (n <=? 32)%nat).

Fixpoint lstrip (s : string) : string :=
  match s with
  | EmptyString => EmptyString
  | String c s' => if is_space c then lstrip s' else s
  end.

(** Drops trailing white space: a character survives when it is not a space
    or something after it survives. *)
Fixpoint rstrip (s : string) : string :=
  match s with
  | EmptyString => EmptyString
  | String c s' =>
      match rstrip s' with
      | EmptyString => if is_space c then EmptyString else String c EmptyString
      | r => String c r
      end
  end.

Definition strip (s : string) : string := rstrip (lstrip s).

Fixpoint blank (s : string) : bool :=
  match s with
  | EmptyString => true
  | String c s' => is_space c && blank s'
  end.

(** ** proceso.py *)

Record Proceso : Type := mkProceso {
  pid : string;
  duracion : Z;
  prioridad : Z;
  tiempo_llegada : Z;
  tiempo_restante : Z;
  tiempo_inicio : option Z;
  tiempo_fin : option Z
}.

Definition msg_pid : string := "El PID no puede estar vacío".
Definition msg_duracion : string := "La duración debe ser un entero positivo".
Definition msg_prioridad : string := "La prioridad debe ser un entero".
Definition msg_llegada : string :=
  "El tiempo de llegada debe ser un entero no negativo".
Definition msg_quantum : string := "El quantum debe ser un entero positivo".

(** [pid] is rejected by
    [not pid or not isinstance(pid, str) or pid.strip() == ""]. *)
Definition pid_rechazado (v : PyVal) : bool :=
  negb (truthy v) ||
  match as_str v with
  | None => true
  | Some s => String.eqb (strip s) ""
  end.

(** [not isinstance(duracion, int) or duracion <= 0]. *)
Definition duracion_rechazada (v : PyVal) : bool :=
  match as_int v with
  | None => true
  | Some z => z <=? 0
  end.

(** [not isinstance(prioridad, int)]. *)
Definition prioridad_rechazada (v : PyVal) : bool :=
  match as_int v with
  | None => true
  | Some _ => false
  end.

(** [not isinstance(tiempo_llegada, int) or tiempo_llegada < 0]. *)
Definition llegada_rechazada (v : PyVal) : bool :=
  match as_int v with
  | None => true
  | Some z => z <? 0
  end.

(** [Proceso.__init__]; the fourth argument is optional and defaults to 0. *)
Definition Proceso_init (v_pid v_duracion v_prioridad : PyVal)
    (v_llegada : option PyVal) : result Proceso :=
  let v_llegada := default (PyInt 0) v_llegada in
  if pid_rechazado v_pid then Raise (ValueError msg_pid)
  else if duracion_rechazada v_duracion then Raise (ValueError msg_duracion)
  else if prioridad_rechazada v_prioridad then Raise (ValueError msg_prioridad)
  else if llegada_rechazada v_llegada then Raise (ValueError msg_llegada)
  else
    match as_str v_pid, as_int v_duracion, as_int v_prioridad,
          as_int v_llegada with
    | Some s, Some d, Some pr, Some ll =>
        Ok {| pid := s; duracion := d; prioridad := pr; tiempo_llegada := ll;
              tiempo_restante := d; tiempo_inicio := None;
              tiempo_fin := None |}
    | _, _, _, _ => Raise TypeError
    end.

Definition reiniciar (p : Proceso) : Proceso :=
  {| pid := pid p; duracion := duracion p; prioridad := prioridad p;
     tiempo_llegada := tiempo_llegada p;
     tiempo_restante := duracion p; tiempo_inicio := None;
     tiempo_fin := None |}.

Definition to_dict (p : Proceso) : gmap string PyVal :=
  <["pid" := PyStr (pid p)]>
    (<["duracion" := PyInt (duracion p)]>
      (<["prioridad" := PyInt (prioridad p)]>
        (<["tiempo_llegada" := PyInt (tiempo_llegada p)]> ∅))).

(** [data[key]]. *)
Definition getitem (data : gmap string PyVal) (key : string) : result PyVal :=
  match data !! key with
  | Some v => Ok v
  | None => Raise (KeyError key)
  end.

Section FromDict.
(** The builtin [int(s)] on text: the parsed integer, or nothing when the
    text is not an integer literal ([ValueError]). *)
Variable int_of_str : string -> option Z.

Definition py_int (v : PyVal) : result Z :=
  match v with
  | PyInt z => Ok z
  | PyBool b => Ok (if b then 1 else 0)
  | PyStr s =>
      match int_of_str s with
      | Some z => Ok z
      | None => Raise (ValueError "invalid literal for int()")
      end
  | PyNone => Raise TypeError
  end.

(** [Proceso.from_dict]: arguments are evaluated left to right, then the
    constructor runs. *)
Definition from_dict (data : gmap string PyVal) : result Proceso :=
  v_pid <-- getitem data "pid" ;;
  v_dur <-- getitem data "duracion" ;;
  d <-- py_int v_dur ;;
  v_pri <-- getitem data "prioridad" ;;
  pr <-- py_int v_pri ;;
  ll <-- py_int (default (PyInt 0) (data !! "tiempo_llegada")) ;;
  Proceso_init v_pid (PyInt d) (PyInt pr) (Some (PyInt ll)).
End FromDict.

(** ** scheduler.py *)

(** [(pid, tiempo_inicio, tiempo_fin)]. *)
Definition GanttEntry : Type := string * Z * Z.

Definition seg_pid (e : GanttEntry) : string := e.1.1.
Definition seg_inicio (e : GanttEntry) : Z := e.1.2.
Definition seg_fin (e : GanttEntry) : Z := e.2.
Definition seg_duracion (e : GanttEntry) : Z := seg_fin e - seg_inicio e.

Definition deepcopy (p : Proceso) : Proceso := p.

Definition set_tiempo_inicio (v : option Z) (p : Proceso) : Proceso :=
  {| pid := pid p; duracion := duracion p; prioridad := prioridad p;
     tiempo_llegada := tiempo_llegada p;
     tiempo_restante := tiempo_restante p; tiempo_inicio := v;
     tiempo_fin := tiempo_fin p |}.

Definition set_tiempo_fin (v : option Z) (p : Proceso) : Proceso :=
  {| pid := pid p; duracion := duracion p; prioridad := prioridad p;
     tiempo_llegada := tiempo_llegada p;
     tiempo_restante := tiempo_restante p; tiempo_inicio := tiempo_inicio p;
     tiempo_fin := v |}.

Definition set_tiempo_restante (v : Z) (p : Proceso) : Proceso :=
  {| pid := pid p; duracion := duracion p; prioridad := prioridad p;
     tiempo_llegada := tiempo_llegada p;
     tiempo_restante := v; tiempo_inicio := tiempo_inicio p;
     tiempo_fin := tiempo_fin p |}.

(** [if tiempo_actual < proceso.tiempo_llegada:
       tiempo_actual = proceso.tiempo_llegada]. *)
Definition avanzar (tiempo_actual : Z) (p : Proceso) : Z :=
  if tiempo_actual <? tiempo_llegada p then tiempo_llegada p
  else tiempo_actual.

(** [if proceso.tiempo_inicio is None: proceso.tiempo_inicio = tiempo_actual]. *)
Definition marcar_inicio (tiempo_actual : Z) (p : Proceso) : Proceso :=
  match tiempo_inicio p with
  | None => set_tiempo_inicio (Some tiempo_actual) p
  | Some _ => p
  end.

(** [list.sort(key=lambda p: p.tiempo_llegada)] is a stable sort; the result
    of a stable sort is determined by the keys, and it is computed here by
    insertion from the right. *)
Fixpoint insertar_llegada (p : Proceso) (l : list Proceso) : list Proceso :=
  match l with
  | [] => [p]
  | q :: l' =>
      if tiempo_llegada p <=? tiempo_llegada q then p :: q :: l'
      else q :: insertar_llegada p l'
  end.

Definition sort_llegada (l : list Proceso) : list Proceso :=
  foldr insertar_llegada [] l.

(** The [for proceso in procesos_copia] loop of FCFS: the objects of the
    list are updated in place, the chart and the clock are threaded. *)
Fixpoint fcfs_for (copia : list Proceso) (gantt : list GanttEntry)
    (tiempo_actual : Z) : list Proceso * list GanttEntry * Z :=
  match copia with
  | [] => ([], gantt, tiempo_actual)
  | proceso :: resto =>
      let tiempo_actual := avanzar tiempo_actual proceso in
      let proceso := marcar_inicio tiempo_actual proceso in
      let t_fin := tiempo_actual + duracion proceso in
      let gantt := gantt ++ [(pid proceso, tiempo_actual, t_fin)] in
      let proceso := set_tiempo_fin (Some t_fin) proceso in
      let proceso := set_tiempo_restante 0 proceso in
      let '(resto', gantt', t') := fcfs_for resto gantt t_fin in
      (proceso :: resto', gantt', t')
  end.

(** [for i, proceso_original in enumerate(procesos)]: publishes the fields of
    [procesos_copia[i]] onto the [i]-th original; [i] starts at [desde]. *)
Fixpoint publicar (desde : nat) (procesos copia : list Proceso)
    : result (list Proceso) :=
  match procesos with
  | [] => Ok []
  | original :: resto =>
      match copia !! desde with
      | None => Raise IndexError
      | Some c =>
          let original := set_tiempo_inicio (tiempo_inicio c) original in
          let original := set_tiempo_fin (tiempo_fin c) original in
          let original := set_tiempo_restante 0 original in
          resto' <-- publicar (S desde) resto copia ;;
          Ok (original :: resto')
      end
  end.

(** [FCFSScheduler.planificar]: the chart, and the caller's list after the
    call. *)
Definition FCFS_planificar (procesos : list Proceso)
    : result (list GanttEntry * list Proceso) :=
  match procesos with
  | [] => Ok ([], [])
  | _ =>
      let procesos_copia := map deepcopy procesos in
      let procesos_copia := sort_llegada procesos_copia in
      let '(procesos_copia, gantt, _) := fcfs_for procesos_copia [] 0 in
      procesos' <-- publicar 0 procesos procesos_copia ;;
      Ok (gantt, procesos')
  end.

Record RoundRobinScheduler : Type := { quantum : Z }.

(** [RoundRobinScheduler.__init__(quantum=4)]. *)
Definition RoundRobinScheduler_init (q : option Z)
    : result RoundRobinScheduler :=
  let q := default 4 q in
  if q <=? 0 then Raise (ValueError msg_quantum)
  else Ok {| quantum := q |}.

(** State of the [while cola] loop.  [rr_copia] holds the objects of
    [procesos_copia]; [rr_cola] holds, for each queued object, its position
    in [rr_copia]. *)
Record rr_state : Type := {
  rr_copia : list Proceso;
  rr_cola : list nat;
  rr_gantt : list GanttEntry;
  rr_tiempo : Z
}.

(** One pass through the body of [while cola], [i] being the object taken by
    [cola.pop(0)] and [resto] the rest of the queue. *)
Definition rr_cuerpo (q : Z) (st : rr_state) (i : nat) (resto : list nat)
    : result rr_state :=
  match rr_copia st !! i with
  | None => Raise IndexError
  | Some proceso =>
      let tiempo_actual := avanzar (rr_tiempo st) proceso in
      let proceso := marcar_inicio tiempo_actual proceso in
      let tiempo_ejecucion := Z.min q (tiempo_restante proceso) in
      let t_fin := tiempo_actual + tiempo_ejecucion in
      let gantt := rr_gantt st ++ [(pid proceso, tiempo_actual, t_fin)] in
      let proceso :=
        set_tiempo_restante (tiempo_restante proceso - tiempo_ejecucion)
          proceso in
      let tiempo_actual := t_fin in
      if tiempo_restante proceso >? 0 then
        Ok {| rr_copia := <[i := proceso]> (rr_copia st);
              rr_cola := resto ++ [i];
              rr_gantt := gantt; rr_tiempo := tiempo_actual |}
      else
        let proceso := set_tiempo_fin (Some tiempo_actual) proceso in
        Ok {| rr_copia := <[i := proceso]> (rr_copia st);
              rr_cola := resto;
              rr_gantt := gantt; rr_tiempo := tiempo_actual |}
  end.

(** [while cola: ...], bounded by [fuel] passes; [None] when the bound is
    reached with the queue still occupied. *)
Fixpoint rr_while (fuel : nat) (q : Z) (st : rr_state)
    : option (result rr_state) :=
  match rr_cola st with
  | [] => Some (Ok st)
  | i :: resto =>
      match fuel with
      | O => None
      | S fuel' =>
          match rr_cuerpo q st i resto with
          | Ok st' => rr_while fuel' q st'
          | Raise e => Some (Raise e)
          end
      end
  end.

(** [RoundRobinScheduler.planificar], the loop bounded by [fuel]. *)
Definition RR_planificar (fuel : nat) (self : RoundRobinScheduler)
    (procesos : list Proceso)
    : option (result (list GanttEntry * list Proceso)) :=
  match procesos with
  | [] => Some (Ok ([], []))
  | _ =>
      let procesos_copia := map deepcopy procesos in
      let cola := seq 0 (length procesos_copia) in
      match rr_while fuel (quantum self)
              {| rr_copia := procesos_copia; rr_cola := cola;
                 rr_gantt := []; rr_tiempo := 0 |} with
      | None => None
      | Some (Raise e) => Some (Raise e)
      | Some (Ok st) =>
          Some (procesos' <-- publicar 0 procesos (rr_copia st) ;;
                Ok (rr_gantt st, procesos'))
      end
  end.

(** ** metrics.py *)

(** One entry of [metricas_individuales]. *)
Record MetricaIndividual : Type := {
  m_tiempo_respuesta : Z;
  m_tiempo_espera : Z;
  m_tiempo_retorno : Z;
  m_duracion : Z;
  m_tiempo_llegada : Z
}.

Record Metricas : Type := {
  metricas_individuales : gmap string MetricaIndividual;
  tiempo_respuesta_promedio : Qc;
  tiempo_espera_promedio : Qc;
  tiempo_retorno_promedio : Qc
}.

(** Body of [for pid, inicio, fin in gantt], on the two dictionaries
    [primer_inicio] and [ultimo_fin]. *)
Definition registrar (acc : gmap string Z * gmap string Z) (e : GanttEntry)
    : gmap string Z * gmap string Z :=
  let '(primer_inicio, ultimo_fin) := acc in
  let '(pid, inicio, fin) := e in
  let primer_inicio :=
    match primer_inicio !! pid with
    | None => <[pid := inicio]> primer_inicio
    | Some _ => primer_inicio
    end in
  (primer_inicio, <[pid := fin]> ultimo_fin).

Definition extremos (gantt : list GanttEntry)
    : gmap string Z * gmap string Z :=
  fold_left registrar gantt (∅, ∅).

(** Accumulators of the [for proceso in procesos] loop. *)
Record acumulado : Type := {
  ac_individuales : gmap string MetricaIndividual;
  ac_respuesta : list Z;
  ac_espera : list Z;
  ac_retorno : list Z
}.

Definition medir (primer_inicio ultimo_fin : gmap string Z)
    (acc : acumulado) (proceso : Proceso) : acumulado :=
  match primer_inicio !! pid proceso, ultimo_fin !! pid proceso with
  | Some inicio, Some fin =>
      let tiempo_respuesta := inicio - tiempo_llegada proceso in
      let tiempo_retorno := fin - tiempo_llegada proceso in
      let tiempo_espera := tiempo_retorno - duracion proceso in
      {| ac_individuales :=
           <[pid proceso :=
               {| m_tiempo_respuesta := tiempo_respuesta;
                  m_tiempo_espera := tiempo_espera;
                  m_tiempo_retorno := tiempo_retorno;
                  m_duracion := duracion proceso;
                  m_tiempo_llegada := tiempo_llegada proceso |}]>
             (ac_individuales acc);
         ac_respuesta := ac_respuesta acc ++ [tiempo_respuesta];
         ac_espera := ac_espera acc ++ [tiempo_espera];
         ac_retorno := ac_retorno acc ++ [tiempo_retorno] |}
  | _, _ => acc
  end.

Definition suma (l : list Z) : Z := foldr Z.add 0 l.

(** [sum(xs) / n if n > 0 else 0] with [n = len(xs)]. *)
Definition promedio (xs : list Z) : Qc :=
  let n := Z.of_nat (length xs) in
  if n >? 0 then (Qc_of_Z (suma xs) / Qc_of_Z n)%Qc else 0%Qc.

(** [MetricasCalculator.calcular_metricas]. *)
Definition calcular_metricas (procesos : list Proceso)
    (gantt : list GanttEntry) : Metricas :=
  match procesos, gantt with
  | [], _ | _, [] =>
      {| metricas_individuales := ∅;
         tiempo_respuesta_promedio := 0%Qc;
         tiempo_espera_promedio := 0%Qc;
         tiempo_retorno_promedio := 0%Qc |}
  | _, _ =>
      let '(primer_inicio, ultimo_fin) := extremos gantt in
      let acc :=
        fold_left (medir primer_inicio ultimo_fin) procesos
          {| ac_individuales := ∅; ac_respuesta := [];
             ac_espera := []; ac_retorno := [] |} in
      {| metricas_individuales := ac_individuales acc;
         tiempo_respuesta_promedio := promedio (ac_respuesta acc);
         tiempo_espera_promedio := promedio (ac_espera acc);
         tiempo_retorno_promedio := promedio (ac_retorno acc) |}
  end.

(** ** Definitions used to state the properties *)


(** The clock discipline of the planners, written on values: the chart
    obtained by serving [cola] in order, each process for its whole
    [duracion], from time [reloj]. *)
Fixpoint servir (reloj : Z) (cola : list Proceso) : list GanttEntry :=
  match cola with
  | [] => []
  | p :: resto =>
      let inicio := Z.max reloj (tiempo_llegada p) in
      (pid p, inicio, inicio + duracion p)
        :: servir (inicio + duracion p) resto
  end.

(** Length of the next run of [p] under quantum [q]. *)
Definition turno (q : Z) (p : Proceso) : Z := Z.min q (tiempo_restante p).

(** The queue after its head [p] has run once: [p] goes back to the tail
    exactly when work remains. *)
Definition siguiente (q : Z) (p : Proceso) (resto : list Proceso)
    : list Proceso :=
  let restante := tiempo_restante p - turno q p in
  if decide (0 < restante)
  then resto ++ [set_tiempo_restante restante p]
  else resto.

(** The rotation of Round-Robin, written on values: a FIFO queue of
    processes served from time [reloj]; the head waits for its arrival, runs
    for [turno q], and the queue becomes [siguiente q]. *)
Fixpoint rotar (fuel : nat) (q : Z) (reloj : Z) (cola : list Proceso)
    : option (list GanttEntry) :=
  match cola with
  | [] => Some []
  | p :: resto =>
      match fuel with
      | O => None
      | S fuel' =>
          let inicio := Z.max reloj (tiempo_llegada p) in
          cons (pid p, inicio, inicio + turno q p)
            <$> rotar fuel' q (inicio + turno q p) (siguiente q p resto)
      end
  end.

(** [ceil(a / b)] for [b > 0]. *)
Definition ceil_div (a b : Z) : Z := (a + b - 1) / b.

(** Ordered by arrival, ascending. *)
Definition por_llegada (l : list Proceso) : Prop :=
  StronglySorted (fun p r => tiempo_llegada p <= tiempo_llegada r) l.

(** The processes of [l] whose arrival time is [k], in the order of [l]. *)
Definition con_llegada (k : Z) (l : list Proceso) : list Proceso :=
  filter (fun p => tiempo_llegada p = k) l.

(** A process in the state the constructor gives it. *)
Definition proceso_nuevo (s : string) (d pr ll : Z) : Proceso :=
  {| pid := s; duracion := d; prioridad := pr; tiempo_llegada := ll;
     tiempo_restante := d; tiempo_inicio := None; tiempo_fin := None |}.

(** Chronological chart from time [desde]: each segment starts no earlier
    than [desde], ends after it starts, and the next one starts no earlier
    than it ends. *)
Fixpoint cronologico (desde : Z) (g : list GanttEntry) : Prop :=
  match g with
  | [] => True
  | e :: g' =>
      desde <= seg_inicio e /\ seg_inicio e < seg_fin e /\
      cronologico (seg_fin e) g'
  end.

(** Starts never decrease along the chart, and a later segment starts no
    earlier than an earlier one ends. *)
Definition sin_solape (g : list GanttEntry) : Prop :=
  forall i j a b, (i < j)%nat -> g !! i = Some a -> g !! j = Some b ->
    seg_inicio a <= seg_inicio b /\ seg_fin a <= seg_inicio b.

(** Constraints of the constructor on the fields of a process. *)
Definition campos_validos (p : Proceso) : Prop :=
  strip (pid p) <> ""%string /\ 0 < duracion p /\ 0 <= tiempo_llegada p.

(** Simulation state of a process that has not run. *)
Definition estado_inicial (p : Proceso) : Prop :=
  tiempo_restante p = duracion p /\ tiempo_inicio p = None /\
  tiempo_fin p = None.

Definition de_pid (x : string) (g : list GanttEntry) : list GanttEntry :=
  filter (fun e => seg_pid e = x) g.

(** A process as [Proceso.__init__] leaves it. *)
Definition valido (p : Proceso) : Prop :=
  campos_validos p /\ estado_inicial p.

(** An object of the store and a queued value carry the same work. *)
Definition mismo_trabajo (c p : Proceso) : Prop :=
  pid c = pid p /\ tiempo_llegada c = tiempo_llegada p /\
  tiempo_restante c = tiempo_restante p.

(** The queue of positions [cola], read through the store [copia], is the
    queue of values [vals]. *)
Definition refleja (copia : list Proceso) (cola : list nat)
    (vals : list Proceso) : Prop :=
  Forall2 (fun i p => exists c, copia !! i = Some c /\ mismo_trabajo c p)
    cola vals.

(** Passes of the loop that are enough for the queue [cola]: a process
    leaves the queue or loses at least one unit of work at each pass. *)
Definition peso (p : Proceso) : nat := S (Z.to_nat (tiempo_restante p)).

Definition carga (cola : list Proceso) : nat :=
  foldr (fun p n => (peso p + n)%nat) 0%nat cola.

(** Run lengths of a process with [r] units of work under quantum [q]:
    [ceil(r / q) - 1] full quanta, then what is left. *)
Definition turnos (q r : Z) : list Z :=
  replicate (Z.to_nat (ceil_div r q - 1)) q ++ [r - (ceil_div r q - 1) * q].

(** Number of runs owed to the processes of [cola] named [x]. *)
Definition turnos_de (q : Z) (x : string) (cola : list Proceso) : Z :=
  suma (map (fun p => ceil_div (tiempo_restante p) q)
          (filter (fun p => pid p = x) cola)).

(** Work left in the object at position [i] of the store. *)
Definition restante_en (copia : list Proceso) (i : nat) : Z :=
  from_option tiempo_restante 0 (copia !! i).

(** Total remaining work of the queued objects. *)
Definition trabajo (st : rr_state) : Z :=
  suma (map (restante_en (rr_copia st)) (rr_cola st)).

(** Invariant of the [while cola] loop: no object is queued twice and every
    queued object has work left. *)
Definition rr_inv (st : rr_state) : Prop :=
  NoDup (rr_cola st) /\
  Forall (fun i => exists c, rr_copia st !! i = Some c /\
                             0 < tiempo_restante c) (rr_cola st).

(** State of the loop on entry. *)
Definition rr_inicial (procesos : list Proceso) : rr_state :=
  {| rr_copia := map deepcopy procesos;
     rr_cola := seq 0 (length (map deepcopy procesos));
     rr_gantt := []; rr_tiempo := 0 |}.

(** Starts and ends of the segments of [x], in the order of the chart. *)
Definition inicios_de (x : string) (g : list GanttEntry) : list Z :=
  map seg_inicio (de_pid x g).

Definition fines_de (x : string) (g : list GanttEntry) : list Z :=
  map seg_fin (de_pid x g).

Fixpoint minimo (l : list Z) : option Z :=
  match l with
  | [] => None
  | a :: l' =>
      Some (match minimo l' with Some m => Z.min a m | None => a end)
  end.

Fixpoint maximo (l : list Z) : option Z :=
  match l with
  | [] => None
  | a :: l' =>
      Some (match maximo l' with Some m => Z.max a m | None => a end)
  end.

(** The metrics of [p] against the chart [g]: measured from the start of the
    first segment of its id and the end of the last one, in the order of the
    chart; nothing when its id has no segment. *)
Definition metrica_de (g : list GanttEntry) (p : Proceso)
    : option MetricaIndividual :=
  match head (inicios_de (pid p) g), last (fines_de (pid p) g) with
  | Some inicio, Some fin =>
      Some {| m_tiempo_respuesta := inicio - tiempo_llegada p;
              m_tiempo_espera := fin - tiempo_llegada p - duracion p;
              m_tiempo_retorno := fin - tiempo_llegada p;
              m_duracion := duracion p;
              m_tiempo_llegada := tiempo_llegada p |}
  | _, _ => None
  end.

(** The metrics of the processes that have segments, in input order. *)
Definition medidas (procesos : list Proceso) (g : list GanttEntry)
    : list MetricaIndividual :=
  omap (metrica_de g) procesos.

(** A call that ends with an exception. *)
Definition lanza {A} (r : result A) : Prop := exists e, r = Raise e.

(** Readings of the constraints on the arguments of the constructor. *)
Definition id_en_blanco (v : PyVal) : Prop :=
  exists s, v = PyStr s /\ blank s = true.

Definition texto_no_blanco (v : PyVal) : Prop :=
  exists s, v = PyStr s /\ blank s = false.

Definition es_entero (v : PyVal) : Prop := exists z, as_int v = Some z.

Definition entero_positivo (v : PyVal) : Prop :=
  exists z, as_int v = Some z /\ 0 < z.

Definition entero_negativo (v : PyVal) : Prop :=
  exists z, as_int v = Some z /\ z < 0.

Definition entero_no_negativo (v : PyVal) : Prop :=
  exists z, as_int v = Some z /\ 0 <= z.

(** A process obtained from the constructor, and a planner obtained from
    its constructor. *)
Definition construido (p : Proceso) : Prop :=
  exists v_pid v_duracion v_prioridad v_llegada,
    Proceso_init v_pid v_duracion v_prioridad v_llegada = Ok p.

Definition rr_construido (rr : RoundRobinScheduler) : Prop :=
  exists q, RoundRobinScheduler_init q = Ok rr.

(** What a planner may change on a caller's process: the identity, burst,
    priority and arrival are kept, and the remaining work is set to 0. *)
Definition publicado (original despues : Proceso) : Prop :=
  pid despues = pid original /\ duracion despues = duracion original /\
  prioridad despues = prioridad original /\
  tiempo_llegada despues = tiempo_llegada original /\
  tiempo_restante despues = 0.

(** ** repositorio.py *)

(** [self._procesos]: a dictionary from ids to processes.  A Python
    dictionary lists its entries in insertion order, holds a key at most
    once, and an assignment to a key already present replaces the value where
    it stands. *)
Definition Repositorio : Type := list (string * Proceso).

(** [d.get(k)], also the test [k in d]. *)
Fixpoint dict_get (d : Repositorio) (k : string) : option Proceso :=
  match d with
  | [] => None
  | (k', v) :: d' => if decide (k' = k) then Some v else dict_get d' k
  end.

(** [d[k] = v]. *)
Fixpoint dict_set (d : Repositorio) (k : string) (v : Proceso)
    : Repositorio :=
  match d with
  | [] => [(k, v)]
  | (k', v') :: d' =>
      if decide (k' = k) then (k, v) :: d' else (k', v') :: dict_set d' k v
  end.

(** [del d[k]], for [k] present. *)
Fixpoint dict_del (d : Repositorio) (k : string) : Repositorio :=
  match d with
  | [] => []
  | (k', v') :: d' =>
      if decide (k' = k) then d' else (k', v') :: dict_del d' k
  end.

(** [RepositorioProcesos.agregar_proceso], for an argument that is a
    [Proceso]: the returned flag and the repository after the call. *)
Definition agregar_proceso (repo : Repositorio) (proceso : Proceso)
    : bool * Repositorio :=
  match dict_get repo (pid proceso) with
  | Some _ => (false, repo)
  | None => (true, dict_set repo (pid proceso) proceso)
  end.

(** [RepositorioProcesos.eliminar_proceso]. *)
Definition eliminar_proceso (repo : Repositorio) (x : string)
    : bool * Repositorio :=
  match dict_get repo x with
  | Some _ => (true, dict_del repo x)
  | None => (false, repo)
  end.

(** [RepositorioProcesos.obtener_proceso]. *)
Definition obtener_proceso (repo : Repositorio) (x : string)
    : option Proceso :=
  dict_get repo x.

(** [RepositorioProcesos.listar_procesos]: [list(self._procesos.values())]. *)
Definition listar_procesos (repo : Repositorio) : list Proceso :=
  map snd repo.

(** [RepositorioProcesos.cantidad_procesos] and [__len__]. *)
Definition cantidad_procesos (repo : Repositorio) : nat := length repo.

(** [RepositorioProcesos.limpiar]. *)
Definition limpiar (repo : Repositorio) : Repositorio := [].

(** [procesos_lista] of [guardar_json]: what is handed to [json.dump]. *)
Definition registros_json (repo : Repositorio) : list (gmap string PyVal) :=
  map to_dict (listar_procesos repo).

(** What [cargar_json] raises from its loading loop: every exception of the
    loop is caught by [except Exception] and raised again as an [IOError]
    that quotes it. *)
Inductive error_carga : Type :=
  | IOError (causa : exn).

Section CargarJson.
Variable int_of_str : string -> option Z.

(** The loop [for datos in procesos_lista] of [cargar_json]: the repository
    reached, and the exception that stopped the loop, if any. *)
Fixpoint cargar_bucle (repo : Repositorio)
    (procesos_lista : list (gmap string PyVal))
    : Repositorio * option exn :=
  match procesos_lista with
  | [] => (repo, None)
  | datos :: resto =>
      match from_dict int_of_str datos with
      | Ok proceso => cargar_bucle (dict_set repo (pid proceso) proceso) resto
      | Raise e => (repo, Some e)
      end
  end.

(** [cargar_json] from the value of [json.load], a list of records: the
    repository is cleared, then filled by the loop. *)
Definition cargar_registros (repo : Repositorio)
    (procesos_lista : list (gmap string PyVal))
    : Repositorio * option error_carga :=
  let '(repo', e) := cargar_bucle (limpiar repo) procesos_lista in
  (repo', IOError <$> e).
End CargarJson.

(** Representation of a dictionary: no key twice. *)
Definition dict_ok (repo : Repositorio) : Prop := NoDup (map fst repo).

(** Every process is filed under its own id. *)
Definition bajo_su_pid (repo : Repositorio) : Prop :=
  Forall (fun kv => kv.1 = pid kv.2) repo.

(** ** main.py: the computation of a simulation *)

(** [for p in procesos: p.reiniciar()]. *)
Definition reiniciar_todos (procesos : list Proceso) : list Proceso :=
  map reiniciar procesos.

(** [SistemaPlanificacion.ejecutar_fcfs] without its printing, from the list
    returned by [listar_procesos]: nothing when the list is empty, otherwise
    the chart, the report computed from the processes after the run, and
    those processes. *)
Definition ejecutar_fcfs (procesos : list Proceso)
    : option (result (list GanttEntry * Metricas * list Proceso)) :=
  match procesos with
  | [] => None
  | _ =>
      Some (r <-- FCFS_planificar (reiniciar_todos procesos) ;;
            let '(gantt, procesos') := r in
            Ok (gantt, calcular_metricas procesos' gantt, procesos'))
  end.

(** [SistemaPlanificacion.ejecutar_round_robin] without its input and
    printing, for the quantum read: nothing when the list is empty or the
    quantum is not positive; the loop of the planner is bounded by [fuel]
    ([Some None] when the bound is reached). *)
Definition ejecutar_round_robin (fuel : nat) (q : Z)
    (procesos : list Proceso)
    : option (option (result (list GanttEntry * Metricas * list Proceso))) :=
  match procesos with
  | [] => None
  | _ =>
      if q <=? 0 then None
      else
        Some (match RoundRobinScheduler_init (Some q) with
              | Raise e => Some (Raise e)
              | Ok scheduler_rr =>
                  match RR_planificar fuel scheduler_rr
                          (reiniciar_todos procesos) with
                  | None => None
                  | Some r =>
                      Some (r <-- r ;;
                            let '(gantt, procesos') := r in
                            Ok (gantt, calcular_metricas procesos' gantt,
                                procesos'))
                  end
              end)
  end.

(** ** Further definitions used to state properties *)

(** The first round of Round-Robin from time [reloj]: each process of
    [cola], in order, waits for its arrival and runs for [turno q]. *)
Fixpoint primera_ronda (q : Z) (reloj : Z) (cola : list Proceso)
    : list GanttEntry :=
  match cola with
  | [] => []
  | p :: resto =>
      let inicio := Z.max reloj (tiempo_llegada p) in
      (pid p, inicio, inicio + turno q p)
        :: primera_ronda q (inicio + turno q p) resto
  end.

(** A chart without idle time from [desde]: each segment starts where the
    previous one ends. *)
Fixpoint contiguo (desde : Z) (g : list GanttEntry) : Prop :=
  match g with
  | [] => True
  | e :: g' => seg_inicio e = desde /\ contiguo (seg_fin e) g'
  end.

(** End of the chart [g] started at [desde]. *)
Definition fin_de (desde : Z) (g : list GanttEntry) : Z :=
  from_option seg_fin desde (last g).

(** What the planners and the report read of a process. *)
Definition datos_de (p : Proceso) : string * Z * Z :=
  (pid p, duracion p, tiempo_llegada p).

(** The times published on a process are those of the segment [e]. *)
Definition tiempos_de (e : GanttEntry) (p : Proceso) : Prop :=
  tiempo_inicio p = Some (seg_inicio e) /\
  tiempo_fin p = Some (seg_fin e).

(** The times published on a process are those of its own segments in the
    chart [g]: the start of the first and the end of the last. *)
Definition tiempos_propios (g : list GanttEntry) (p : Proceso) : Prop :=
  is_Some (tiempo_inicio p) /\ is_Some (tiempo_fin p) /\
  tiempo_inicio p = head (inicios_de (pid p) g) /\
  tiempo_fin p = last (fines_de (pid p) g).

(** Invariant of the Round-Robin loop on the published fields, for a store
    whose objects have pairwise distinct ids: a start is recorded exactly
    when the object has run, and is the start of its first segment; the
    objects out of the queue carry the end of their last segment. *)
Definition rr_tiempos (st : rr_state) : Prop :=
  NoDup (map pid (rr_copia st)) /\
  NoDup (rr_cola st) /\
  (forall i, i ∈ rr_cola st -> (i < length (rr_copia st))%nat) /\
  (forall i c, rr_copia st !! i = Some c ->
     tiempo_inicio c = head (inicios_de (pid c) (rr_gantt st))) /\
  (forall i c, rr_copia st !! i = Some c -> i ∉ rr_cola st ->
     is_Some (tiempo_inicio c) /\ is_Some (tiempo_fin c) /\
     tiempo_fin c = last (fines_de (pid c) (rr_gantt st))).

(** * Properties *)

(** ** The stable sort by arrival *)

Section Orden.

Lemma insertar_llegada_perm p l : insertar_llegada p l ≡ₚ p :: l.
Proof.
  induction l as [|q l IH]; simpl; [done|].
  destruct (tiempo_llegada p <=? tiempo_llegada q); [done|].
  rewrite IH. apply Permutation_swap.
Qed.

Lemma sort_llegada_perm l : sort_llegada l ≡ₚ l.
Proof.
  induction l as [|p l IH]; simpl; [done|].
  rewrite insertar_llegada_perm. by rewrite IH.
Qed.

Lemma sort_llegada_length l : length (sort_llegada l) = length l.
Proof. by rewrite sort_llegada_perm. Qed.

Lemma insertar_llegada_sorted p l :
  por_llegada l -> por_llegada (insertar_llegada p l).
Proof.
  unfold por_llegada. induction 1 as [|q l Hl IH Hq]; simpl.
  - repeat constructor.
  - destruct (Z.leb_spec (tiempo_llegada p) (tiempo_llegada q)) as [Hle|Hgt].
    + constructor; [by constructor|].
      constructor; [done|].
      eapply Forall_impl; [exact Hq|]. simpl. intros; lia.
    + constructor; [done|].
      rewrite insertar_llegada_perm. constructor; [lia|done].
Qed.

Lemma sort_llegada_sorted l : por_llegada (sort_llegada l).
Proof.
  induction l as [|p l IH]; simpl; [constructor|].
  by apply insertar_llegada_sorted.
Qed.

Lemma insertar_llegada_estable k p l :
  con_llegada k (insertar_llegada p l) = con_llegada k (p :: l).
Proof.
  unfold con_llegada. induction l as [|q l IH]; simpl; [done|].
  destruct (Z.leb_spec (tiempo_llegada p) (tiempo_llegada q)) as [Hle|Hgt];
    [done|].
  rewrite (filter_cons _ q), IH, !filter_cons.
  repeat case_decide; try done; lia.
Qed.

Lemma sort_llegada_estable k l :
  con_llegada k (sort_llegada l) = con_llegada k l.
Proof.
  induction l as [|p l IH]; simpl; [done|].
  rewrite insertar_llegada_estable. unfold con_llegada in *.
  by rewrite !filter_cons, IH.
Qed.

Lemma sort_llegada_id l : por_llegada l -> sort_llegada l = l.
Proof.
  unfold por_llegada. induction 1 as [|p l Hl IH Hp]; simpl; [done|].
  rewrite IH. destruct l as [|q l]; simpl; [done|].
  inversion Hp as [|? ? Hpq _]; subst.
  destruct (Z.leb_spec (tiempo_llegada p) (tiempo_llegada q)); [done|lia].
Qed.

End Orden.

(** ** First-Come, First-Served *)

Section FCFS.

Lemma avanzar_max t p : avanzar t p = Z.max t (tiempo_llegada p).
Proof. unfold avanzar. destruct (Z.ltb_spec t (tiempo_llegada p)); lia. Qed.

Lemma marcar_inicio_pid t p : pid (marcar_inicio t p) = pid p.
Proof. unfold marcar_inicio. by destruct (tiempo_inicio p). Qed.

Lemma marcar_inicio_duracion t p :
  duracion (marcar_inicio t p) = duracion p.
Proof. unfold marcar_inicio. by destruct (tiempo_inicio p). Qed.

Lemma marcar_inicio_restante t p :
  tiempo_restante (marcar_inicio t p) = tiempo_restante p.
Proof. unfold marcar_inicio. by destruct (tiempo_inicio p). Qed.

Lemma marcar_inicio_llegada t p :
  tiempo_llegada (marcar_inicio t p) = tiempo_llegada p.
Proof. unfold marcar_inicio. by destruct (tiempo_inicio p). Qed.

Lemma fcfs_for_cons p resto gantt t :
  let t1 := avanzar t p in
  let p1 := marcar_inicio t1 p in
  let t2 := t1 + duracion p1 in
  let r := fcfs_for resto (gantt ++ [(pid p1, t1, t2)]) t2 in
  fcfs_for (p :: resto) gantt t =
    (set_tiempo_restante 0 (set_tiempo_fin (Some t2) p1) :: r.1.1,
     r.1.2, r.2).
Proof.
  simpl.
  by destruct (fcfs_for resto _ _) as [[copia' gantt'] t'].
Qed.

(** The loop appends to the chart exactly what [servir] lists, and keeps
    as many objects as it was given. *)
Lemma fcfs_for_servir copia gantt t :
  (fcfs_for copia gantt t).1.2 = gantt ++ servir t copia /\
  length (fcfs_for copia gantt t).1.1 = length copia.
Proof.
  revert gantt t. induction copia as [|p copia IH]; intros gantt t.
  - simpl. by rewrite app_nil_r.
  - rewrite fcfs_for_cons. cbv zeta. cbn [fst snd length servir].
    split; [|f_equal; apply IH].
    etransitivity; [apply IH|].
    rewrite <- app_assoc. simpl.
    by rewrite marcar_inicio_pid, marcar_inicio_duracion, avanzar_max.
Qed.

Lemma publicar_ok procesos copia desde :
  (desde + length procesos <= length copia)%nat ->
  exists procesos', publicar desde procesos copia = Ok procesos' /\
    length procesos' = length procesos.
Proof.
  revert desde. induction procesos as [|o procesos IH]; intros desde Hlen;
    simpl in *.
  - by exists [].
  - destruct (lookup_lt_is_Some_2 copia desde) as [c Hc]; [lia|].
    rewrite Hc. destruct (IH (S desde)) as (r & -> & Hr); [lia|].
    simpl. eexists; split; [done|]. simpl. by rewrite Hr.
Qed.

Lemma publicar_marco procesos : forall copia desde procesos',
  publicar desde procesos copia = Ok procesos' ->
  Forall2 publicado procesos procesos'.
Proof.
  induction procesos as [|o procesos IH]; intros copia desde r Hr;
    simpl in Hr.
  - simplify_eq. constructor.
  - destruct (copia !! desde) as [c|]; [|done].
    destruct (publicar (S desde) procesos copia) as [r'|] eqn:Hr';
      simpl in Hr; [|done].
    simplify_eq. constructor; [done|]. by eapply IH.
Qed.

Lemma servir_length t cola : length (servir t cola) = length cola.
Proof.
  revert t. induction cola as [|p cola IH]; intros t; simpl; [done|].
  by rewrite IH.
Qed.

Lemma servir_pids t cola : map seg_pid (servir t cola) = map pid cola.
Proof.
  revert t. induction cola as [|p cola IH]; intros t; simpl; [done|].
  by rewrite IH.
Qed.

Lemma servir_duraciones t cola :
  map (fun e => (seg_pid e, seg_duracion e)) (servir t cola) =
  map (fun p => (pid p, duracion p)) cola.
Proof.
  revert t. induction cola as [|p cola IH]; intros t; simpl; [done|].
  rewrite IH. unfold seg_pid, seg_duracion, seg_fin, seg_inicio. simpl.
  do 2 f_equal. lia.
Qed.

Lemma map_deepcopy l : map deepcopy l = l.
Proof. induction l as [|p l IH]; simpl; [done|]. by rewrite IH. Qed.

Lemma FCFS_planificar_cons p0 resto :
  FCFS_planificar (p0 :: resto) =
    (procesos' <-- publicar 0 (p0 :: resto)
                     (fcfs_for (sort_llegada (p0 :: resto)) [] 0).1.1 ;;
     Ok ((fcfs_for (sort_llegada (p0 :: resto)) [] 0).1.2, procesos')).
Proof.
  unfold FCFS_planificar. rewrite map_deepcopy.
  by destruct (fcfs_for _ _ _) as [[copia' gantt'] t'].
Qed.

Lemma FCFS_planificar_servir procesos :
  exists procesos',
    FCFS_planificar procesos = Ok (servir 0 (sort_llegada procesos), procesos')
    /\ length procesos' = length procesos.
Proof.
  destruct procesos as [|p0 procesos]; [by exists []|].
  rewrite FCFS_planificar_cons.
  pose proof (fcfs_for_servir (sort_llegada (p0 :: procesos)) [] 0)
    as [Hg Hlen].
  destruct (publicar_ok (p0 :: procesos)
              (fcfs_for (sort_llegada (p0 :: procesos)) [] 0).1.1 0)
    as (r & Hr & Hlr).
  { rewrite Hlen, sort_llegada_length. lia. }
  rewrite Hr, Hg. by exists r.
Qed.

End FCFS.

(** C1.  [FCFSScheduler.planificar] returns, for every list of processes, the
    chart obtained by sorting a copy by arrival time with a stable sort (the
    sorted copy is a permutation of the input, ascending in arrival, and
    processes with the same arrival keep their input order) and then serving
    the copy in order against a clock that starts at 0, waits for an arrival
    that is still ahead, and emits one segment [(pid, clock, clock + burst)]
    per process.  Hence the chart has one segment per input process, and the
    segments carry, in order, the ids and bursts of the sorted copy.  On
    P1(5), P2(3), P3(8), all arriving at 0, the chart is
    [(P1,0,5); (P2,5,8); (P3,8,16)]. *)
Theorem C1_fcfs_planificar (procesos : list Proceso) :
  let orden := sort_llegada procesos in
  (exists procesos',
     FCFS_planificar procesos = Ok (servir 0 orden, procesos')) /\
  orden ≡ₚ procesos /\
  por_llegada orden /\
  (forall k, con_llegada k orden = con_llegada k procesos) /\
  length (servir 0 orden) = length procesos /\
  map (fun e => (seg_pid e, seg_duracion e)) (servir 0 orden) =
    map (fun p => (pid p, duracion p)) orden /\
  (exists procesos',
     FCFS_planificar
       [proceso_nuevo "P1" 5 1 0; proceso_nuevo "P2" 3 2 0;
        proceso_nuevo "P3" 8 1 0] =
     Ok ([("P1"%string, 0, 5); ("P2"%string, 5, 8); ("P3"%string, 8, 16)],
         procesos')).
Proof.
  intros orden. subst orden. repeat split.
  - destruct (FCFS_planificar_servir procesos) as (r & Hr & _). by exists r.
  - apply sort_llegada_perm.
  - apply sort_llegada_sorted.
  - intros k. apply sort_llegada_estable.
  - by rewrite servir_length, sort_llegada_length.
  - apply servir_duraciones.
  - eexists. vm_compute. reflexivity.
Qed.

(** ** Round-Robin: the loop over shared objects against the rotation of
    values *)

Section RoundRobinStore.

Lemma refleja_insert copia cola vals i c :
  i ∉ cola -> refleja copia cola vals ->
  refleja (<[i := c]> copia) cola vals.
Proof.
  unfold refleja. intros Hi H. induction H as [|j p cola vals Hj H IH].
  - constructor.
  - apply not_elem_of_cons in Hi as [Hij Hi].
    constructor; [|by apply IH].
    destruct Hj as (c0 & Hc0 & Hm). exists c0. split; [|done].
    by rewrite list_lookup_insert_ne.
Qed.

Lemma refleja_seq l : refleja l (seq 0 (length l)) l.
Proof.
  unfold refleja. apply Forall2_same_length_lookup_2.
  - by rewrite length_seq.
  - intros k i p Hi Hp. apply lookup_seq in Hi as [-> _].
    exists p. by split.
Qed.

(** What one pass of the body does to a state whose head object is [c]. *)
Lemma rr_cuerpo_ok q st i resto c :
  rr_copia st !! i = Some c ->
  let t1 := Z.max (rr_tiempo st) (tiempo_llegada c) in
  let run := Z.min q (tiempo_restante c) in
  exists c',
    pid c' = pid c /\ tiempo_llegada c' = tiempo_llegada c /\
    tiempo_restante c' = tiempo_restante c - run /\
    duracion c' = duracion c /\ prioridad c' = prioridad c /\
    rr_cuerpo q st i resto =
      Ok {| rr_copia := <[i := c']> (rr_copia st);
            rr_cola := if decide (0 < tiempo_restante c - run)
                       then resto ++ [i] else resto;
            rr_gantt := rr_gantt st ++ [(pid c, t1, t1 + run)];
            rr_tiempo := t1 + run |}.
Proof.
  intros Hc t1 run. unfold rr_cuerpo. rewrite Hc.
  rewrite avanzar_max. fold t1.
  rewrite marcar_inicio_restante, marcar_inicio_pid. fold run.
  cbn [tiempo_restante set_tiempo_restante].
  destruct (Z.gtb_spec (tiempo_restante c - run) 0) as [Hgt|Hle].
  - exists (set_tiempo_restante (tiempo_restante c - run)
              (marcar_inicio t1 c)).
    rewrite decide_True by lia. cbn.
    by rewrite marcar_inicio_pid, marcar_inicio_llegada,
      marcar_inicio_duracion; unfold marcar_inicio;
      destruct (tiempo_inicio c).
  - exists (set_tiempo_fin (Some (t1 + run))
              (set_tiempo_restante (tiempo_restante c - run)
                 (marcar_inicio t1 c))).
    rewrite decide_False by lia. cbn.
    by rewrite marcar_inicio_pid, marcar_inicio_llegada,
      marcar_inicio_duracion; unfold marcar_inicio;
      destruct (tiempo_inicio c).
Qed.

(** The loop over the store and the rotation of values run in lock step:
    they stop for lack of fuel together, and otherwise the loop ends
    without an exception, having appended the chart of the rotation. *)
Lemma rr_while_rotar q fuel : forall st vals,
  NoDup (rr_cola st) ->
  refleja (rr_copia st) (rr_cola st) vals ->
  match rotar fuel q (rr_tiempo st) vals with
  | None => rr_while fuel q st = None
  | Some g =>
      exists st', rr_while fuel q st = Some (Ok st') /\
        rr_gantt st' = rr_gantt st ++ g /\
        length (rr_copia st') = length (rr_copia st)
  end.
Proof.
  induction fuel as [|fuel IH]; intros [copia cola gantt t] vals Hnd Href;
    cbn [rr_copia rr_cola rr_gantt rr_tiempo] in *.
  - inversion Href; subst; simpl.
    + eexists; repeat split. by rewrite app_nil_r.
    + done.
  - inversion Href as [|i p resto vs (c & Hc & Hpid & Hll & Hrem) Hresto];
      subst.
    { simpl. eexists; repeat split. by rewrite app_nil_r. }
    apply NoDup_cons in Hnd as [Hi Hnd].
    cbn [rr_while rr_cola rotar]. unfold siguiente, turno.
    destruct (rr_cuerpo_ok q
                {| rr_copia := copia; rr_cola := i :: resto;
                   rr_gantt := gantt; rr_tiempo := t |} i resto c Hc)
      as (c' & Hpid' & Hll' & Hrem' & _ & _ & ->).
    cbn [rr_copia rr_cola rr_gantt rr_tiempo] in *.
    rewrite <- Hll, <- Hrem, <- Hpid.
    set (t1 := Z.max t (tiempo_llegada c)) in *.
    set (run := Z.min q (tiempo_restante c)) in *.
    set (st1 := Build_rr_state _ _ _ _).
    set (vals1 := if decide (0 < tiempo_restante c - run) then _ else _).
    specialize (IH st1 vals1).
    assert (Hnd1 : NoDup (rr_cola st1)).
    { subst st1; simpl. case_decide; [|done].
      apply NoDup_app; repeat split; [done| |apply NoDup_singleton].
      intros j Hj Hj'. apply list_elem_of_singleton in Hj'. by subst. }
    assert (Href1 : refleja (rr_copia st1) (rr_cola st1) vals1).
    { subst st1 vals1; simpl. case_decide.
      - apply Forall2_app; [by apply refleja_insert|].
        constructor; [|constructor].
        exists c'. split.
        + apply list_lookup_insert_eq. by eapply lookup_lt_Some.
        + repeat split; simpl; congruence.
      - by apply refleja_insert. }
    specialize (IH Hnd1 Href1).
    replace (rr_tiempo st1) with (t1 + run) in IH by done.
    destruct (rotar fuel q (t1 + run) vals1) as [g|]; simpl; [|done].
    destruct IH as (st' & Hst' & Hg & Hlen).
    exists st'. split; [done|]. split.
    + rewrite Hg. subst st1; simpl. by rewrite <- app_assoc.
    + rewrite Hlen. subst st1; simpl. apply length_insert.
Qed.

End RoundRobinStore.

(** ** Round-Robin: the rotation of values *)

Section RoundRobinValores.

Variable q : Z.
Hypothesis Hq : 0 < q.

Lemma rotar_nil fuel t : rotar fuel q t [] = Some [].
Proof. by destruct fuel. Qed.

Lemma carga_app l k : carga (l ++ k) = (carga l + carga k)%nat.
Proof. induction l as [|p l IH]; simpl; [done|]. rewrite IH. lia. Qed.

Lemma carga_siguiente p resto :
  (carga (siguiente q p resto) < carga (p :: resto))%nat.
Proof.
  unfold siguiente, turno. case_decide.
  - rewrite carga_app. simpl. unfold peso. simpl. lia.
  - simpl. unfold peso. lia.
Qed.

(** The rotation ends within [carga cola] passes. *)
Lemma rotar_termina fuel : forall t cola,
  (carga cola <= fuel)%nat -> is_Some (rotar fuel q t cola).
Proof.
  induction fuel as [|fuel IH]; intros t [|p resto] Hc; try done.
  - simpl in Hc. unfold peso in Hc. lia.
  - cbn [rotar]. apply fmap_is_Some, IH.
    pose proof (carga_siguiente p resto). lia.
Qed.

(** More fuel does not change a chart already obtained. *)
Lemma rotar_mono fuel : forall fuel' t cola g,
  rotar fuel q t cola = Some g -> (fuel <= fuel')%nat ->
  rotar fuel' q t cola = Some g.
Proof.
  induction fuel as [|fuel IH]; intros fuel' t [|p resto] g Hg Hle;
    try (rewrite rotar_nil in *; done); try done.
  destruct fuel' as [|fuel']; [lia|].
  cbn [rotar] in *. apply fmap_Some in Hg as (g' & Hg' & ->).
  erewrite IH; [done|exact Hg'|lia].
Qed.

Lemma siguiente_positivo p resto :
  Forall (fun r => 0 < tiempo_restante r) resto ->
  Forall (fun r => 0 < tiempo_restante r) (siguiente q p resto).
Proof.
  intros H. unfold siguiente. case_decide; [|done].
  apply Forall_app. split; [done|]. by repeat constructor.
Qed.

Lemma rotar_cronologico fuel : forall t cola g,
  Forall (fun r => 0 < tiempo_restante r) cola ->
  rotar fuel q t cola = Some g -> cronologico t g.
Proof.
  induction fuel as [|fuel IH]; intros t [|p resto] g Hpos Hg;
    try (rewrite rotar_nil in Hg; by simplify_eq); try done.
  cbn [rotar] in Hg. apply fmap_Some in Hg as (g' & Hg' & ->).
  apply Forall_cons in Hpos as [Hp Hresto].
  cbn [cronologico]. unfold seg_inicio, seg_fin; simpl.
  split; [lia|]. split; [unfold turno; lia|].
  eapply IH; [|exact Hg']. by apply siguiente_positivo.
Qed.

(** *** Counting the runs *)

Lemma ceil_div_uno r : 0 < r <= q -> ceil_div r q = 1.
Proof.
  intros Hr. unfold ceil_div. symmetry.
  apply (Z.div_unique _ _ _ (r - 1)); lia.
Qed.

Lemma ceil_div_paso r : ceil_div r q = ceil_div (r - q) q + 1.
Proof.
  unfold ceil_div. replace (r + q - 1) with (r - q + q - 1 + 1 * q) by lia.
  rewrite Z.div_add by lia. done.
Qed.

Lemma ceil_div_positivo r : 0 < r -> 1 <= ceil_div r q.
Proof.
  intros Hr. unfold ceil_div.
  apply Z.div_le_lower_bound; lia.
Qed.

Lemma turnos_uno r : 0 < r <= q -> turnos q r = [r].
Proof.
  intros Hr. unfold turnos. rewrite ceil_div_uno by done. simpl.
  f_equal. lia.
Qed.

Lemma turnos_paso r : q < r -> turnos q r = q :: turnos q (r - q).
Proof.
  intros Hr. unfold turnos. rewrite (ceil_div_paso r).
  pose proof (ceil_div_positivo (r - q) ltac:(lia)).
  replace (Z.to_nat (ceil_div (r - q) q + 1 - 1))
    with (S (Z.to_nat (ceil_div (r - q) q - 1))) by lia.
  simpl. f_equal. f_equal. f_equal. ring.
Qed.

Lemma turnos_length r : 0 < r ->
  Z.of_nat (length (turnos q r)) = ceil_div r q.
Proof.
  intros Hr. unfold turnos. rewrite length_app, length_replicate. simpl.
  pose proof (ceil_div_positivo r Hr). lia.
Qed.

Lemma suma_app l k : suma (l ++ k) = suma l + suma k.
Proof. induction l as [|x l IH]; simpl; [done|]. rewrite IH. lia. Qed.

Lemma turnos_de_cons x p resto :
  turnos_de q x (p :: resto) =
  (if decide (pid p = x) then ceil_div (tiempo_restante p) q else 0) +
  turnos_de q x resto.
Proof.
  unfold turnos_de. rewrite filter_cons. by case_decide.
Qed.

Lemma turnos_de_app x l k :
  turnos_de q x (l ++ k) = turnos_de q x l + turnos_de q x k.
Proof. unfold turnos_de. by rewrite filter_app, map_app, suma_app. Qed.

Lemma turnos_de_siguiente x p resto :
  0 < tiempo_restante p ->
  turnos_de q x (p :: resto) =
  (if decide (pid p = x) then 1 else 0) + turnos_de q x (siguiente q p resto).
Proof.
  intros Hp. rewrite turnos_de_cons. unfold siguiente, turno. cbv zeta.
  destruct (decide (0 < tiempo_restante p - Z.min q (tiempo_restante p)))
    as [Hr|Hr].
  - rewrite turnos_de_app, turnos_de_cons. simpl.
    replace (tiempo_restante p - Z.min q (tiempo_restante p))
      with (tiempo_restante p - q) by lia.
    rewrite (ceil_div_paso (tiempo_restante p)).
    unfold turnos_de at 3. simpl. case_decide; lia.
  - rewrite ceil_div_uno by lia. done.
Qed.

Lemma de_pid_cons x e g :
  de_pid x (e :: g) =
  if decide (seg_pid e = x) then e :: de_pid x g else de_pid x g.
Proof. unfold de_pid. by rewrite filter_cons. Qed.

(** Each id gets as many segments as its processes are owed runs. *)
Lemma rotar_cuenta fuel : forall t cola g x,
  Forall (fun r => 0 < tiempo_restante r) cola ->
  rotar fuel q t cola = Some g ->
  Z.of_nat (length (de_pid x g)) = turnos_de q x cola.
Proof.
  induction fuel as [|fuel IH]; intros t [|p resto] g x Hpos Hg;
    try (rewrite rotar_nil in Hg; by simplify_eq); try done.
  cbn [rotar] in Hg. apply fmap_Some in Hg as (g' & Hg' & ->).
  apply Forall_cons in Hpos as [Hp Hresto].
  rewrite turnos_de_siguiente by done.
  rewrite <- (IH _ _ _ x (siguiente_positivo p resto Hresto) Hg').
  rewrite de_pid_cons. unfold seg_pid; simpl.
  case_decide; simpl; lia.
Qed.

End RoundRobinValores.

(** ** Charts in chronological order *)

Section Cronologia.

Lemma cronologico_pares g : forall t,
  cronologico t g ->
  (forall i a, g !! i = Some a ->
     t <= seg_inicio a /\ seg_inicio a < seg_fin a) /\
  sin_solape g.
Proof.
  induction g as [|e g IH]; intros t Hc; [by split|].
  destruct Hc as (Ht & He & Hg). destruct (IH _ Hg) as [IH1 IH2].
  split.
  - intros [|i] a Ha; simpl in Ha.
    + by simplify_eq.
    + destruct (IH1 _ _ Ha). lia.
  - intros [|i] [|j] a b Hij Ha Hb; simpl in Ha, Hb; try lia.
    + simplify_eq. destruct (IH1 _ _ Hb). lia.
    + eapply (IH2 i j); [lia|done..].
Qed.

Lemma servir_cronologico cola : forall t,
  Forall (fun p => 0 < duracion p) cola -> cronologico t (servir t cola).
Proof.
  induction cola as [|p cola IH]; intros t Hpos; simpl; [done|].
  apply Forall_cons in Hpos as [Hp Hpos].
  unfold seg_inicio, seg_fin; simpl.
  split; [lia|]. split; [lia|]. by apply IH.
Qed.

End Cronologia.

(** ** Round-Robin: the runs of each process, ids being unique *)

Section RoundRobinTurnos.

Variable q : Z.
Hypothesis Hq : 0 < q.

Lemma elem_of_map {A B} (f : A -> B) l y :
  y ∈ map f l <-> exists x, y = f x /\ x ∈ l.
Proof.
  induction l as [|a l IH]; simpl.
  - split; [by intros ?%elem_of_nil|by intros (? & _ & ?%elem_of_nil)].
  - rewrite elem_of_cons, IH. split.
    + intros [->|(x & -> & Hx)]; [exists a|exists x];
        rewrite elem_of_cons; auto.
    + intros (x & -> & [->|Hx]%elem_of_cons); eauto.
Qed.

Lemma siguiente_resto p resto r : r ∈ resto -> r ∈ siguiente q p resto.
Proof.
  intros Hr. unfold siguiente. case_decide; [|done].
  apply elem_of_app. by left.
Qed.

Lemma siguiente_pids p resto x :
  x ∈ map pid (siguiente q p resto) -> x = pid p \/ x ∈ map pid resto.
Proof.
  unfold siguiente. case_decide; [|by right].
  rewrite map_app, elem_of_app. simpl.
  intros [?|?%list_elem_of_singleton]; auto.
Qed.

Lemma siguiente_NoDup p resto :
  NoDup (map pid (p :: resto)) -> NoDup (map pid (siguiente q p resto)).
Proof.
  simpl. intros [Hp Hresto]%NoDup_cons.
  unfold siguiente. case_decide; [|done].
  rewrite map_app. apply NoDup_app. split; [done|]. split.
  - simpl. intros x Hx ->%list_elem_of_singleton. done.
  - apply NoDup_singleton.
Qed.

(** With unique ids, the segments of a queued process are its [turnos],
    and an id that is not queued has no segment. *)
Lemma rotar_turnos fuel : forall t cola g,
  Forall (fun r => 0 < tiempo_restante r) cola ->
  NoDup (map pid cola) ->
  rotar fuel q t cola = Some g ->
  (forall p, p ∈ cola ->
     map seg_duracion (de_pid (pid p) g) = turnos q (tiempo_restante p)) /\
  (forall x, x ∉ map pid cola -> de_pid x g = []).
Proof.
  induction fuel as [|fuel IH]; intros t [|p resto] g Hpos Hnd Hg;
    try (rewrite rotar_nil in Hg; simplify_eq;
         split; [by intros ? ?%elem_of_nil|done]);
    try done.
  cbn [rotar] in Hg. apply fmap_Some in Hg as (g' & Hg' & ->).
  apply Forall_cons in Hpos as [Hp Hresto].
  destruct (IH _ _ _ (siguiente_positivo q p resto Hresto)
              (siguiente_NoDup p resto Hnd) Hg') as [IH1 IH2].
  simpl in Hnd. apply NoDup_cons in Hnd as [Hpid Hnd].
  split.
  - intros r [->|Hr]%elem_of_cons.
    + rewrite de_pid_cons. unfold seg_pid at 1; simpl.
      rewrite decide_True by done. simpl.
      unfold seg_duracion at 1, seg_fin, seg_inicio; simpl.
      destruct (decide (q < tiempo_restante p)) as [Hgt|Hle].
      * rewrite turnos_paso by done.
        assert (set_tiempo_restante (tiempo_restante p - q) p
                  ∈ siguiente q p resto) as Hin.
        { unfold siguiente, turno. rewrite decide_True by lia.
          apply elem_of_app. right. apply list_elem_of_singleton.
          f_equal. lia. }
        apply IH1 in Hin. simpl in Hin. rewrite Hin.
        unfold turno. f_equal. lia.
      * rewrite turnos_uno by lia. rewrite IH2.
        { simpl. unfold turno. f_equal. lia. }
        unfold siguiente, turno. by rewrite decide_False by lia.
    + assert (pid p <> pid r) as Hne.
      { intros Heq. apply Hpid. rewrite Heq.
        apply elem_of_map. by exists r. }
      rewrite de_pid_cons. unfold seg_pid at 1; simpl.
      rewrite decide_False by done.
      by apply IH1, siguiente_resto.
  - intros x Hx. apply not_elem_of_cons in Hx as [Hxp Hx].
    rewrite de_pid_cons. unfold seg_pid at 1; simpl.
    rewrite decide_False by done.
    apply IH2. intros [?|?]%siguiente_pids; done.
Qed.

End RoundRobinTurnos.

(** ** Round-Robin: the planner *)

Section RoundRobinPlanificar.

Variable q : Z.

Lemma rr_while_nil fuel st : rr_cola st = [] -> rr_while fuel q st = Some (Ok st).
Proof. intros H. destruct fuel; simpl; by rewrite H. Qed.

(** The planner and the rotation of the input list agree on every amount
    of fuel. *)
Lemma RR_planificar_rotar fuel procesos :
  match rotar fuel q 0 procesos with
  | None => RR_planificar fuel {| quantum := q |} procesos = None
  | Some g =>
      exists procesos',
        RR_planificar fuel {| quantum := q |} procesos =
          Some (Ok (g, procesos')) /\
        length procesos' = length procesos
  end.
Proof.
  destruct procesos as [|p0 resto].
  { rewrite rotar_nil. by exists []. }
  unfold RR_planificar. cbn [quantum].
  set (l := p0 :: resto).
  pose proof (rr_while_rotar q fuel (rr_inicial l) l) as H.
  unfold rr_inicial in H. cbn [rr_cola rr_copia rr_tiempo rr_gantt] in H.
  rewrite !map_deepcopy in *.
  specialize (H (NoDup_seq 0 (length l)) (refleja_seq l)).
  destruct (rotar fuel q 0 l) as [g|].
  - destruct H as (st' & -> & Hg & Hlen). simpl in Hg. subst g.
    destruct (publicar_ok l (rr_copia st') 0) as (r & -> & Hr); [lia|].
    by exists r.
  - by rewrite H.
Qed.

Hypothesis Hq : 0 < q.

(** When no process needs more than one quantum, the rotation serves the
    queue once, in order. *)
Lemma rotar_servir cola : forall fuel t,
  Forall (fun p => 0 < tiempo_restante p <= q /\
                   tiempo_restante p = duracion p) cola ->
  (length cola <= fuel)%nat ->
  rotar fuel q t cola = Some (servir t cola).
Proof.
  induction cola as [|p cola IH]; intros fuel t Hc Hf.
  - apply rotar_nil.
  - apply Forall_cons in Hc as [(Hp & Hd) Hc].
    destruct fuel as [|fuel]; simpl in Hf; [lia|].
    cbn [rotar servir]. unfold siguiente, turno.
    rewrite decide_False by lia.
    rewrite IH by (done || lia). simpl.
    do 3 f_equal; lia.
Qed.

End RoundRobinPlanificar.

(** ** Round-Robin: remaining work along the loop *)

Section RoundRobinTrabajo.

Variable q : Z.
Hypothesis Hq : 0 < q.

Lemma restante_en_lookup copia i c :
  copia !! i = Some c -> restante_en copia i = tiempo_restante c.
Proof. intros H. unfold restante_en. by rewrite H. Qed.

Lemma restante_en_insert_ne copia i c (cola : list nat) :
  i ∉ cola ->
  map (restante_en (<[i := c]> copia)) cola = map (restante_en copia) cola.
Proof.
  induction cola as [|j cola IH]; intros Hi; simpl; [done|].
  apply not_elem_of_cons in Hi as [Hij Hi].
  rewrite IH by done. unfold restante_en.
  by rewrite list_lookup_insert_ne.
Qed.

Lemma rr_inv_insert (copia : list Proceso) i c (cola : list nat) :
  i ∉ cola ->
  Forall (fun j => exists c0, copia !! j = Some c0 /\
                              0 < tiempo_restante c0) cola ->
  Forall (fun j => exists c0, <[i := c]> copia !! j = Some c0 /\
                              0 < tiempo_restante c0) cola.
Proof.
  induction cola as [|j cola IH]; intros Hi H; [constructor|].
  apply not_elem_of_cons in Hi as [Hij Hi].
  apply Forall_cons in H as [Hj H].
  constructor; [|by apply IH].
  by rewrite list_lookup_insert_ne.
Qed.

(** One pass of the loop, from a state that satisfies the invariant: the
    body raises nothing, keeps the invariant and the size of the store,
    and the total remaining work of the queue strictly decreases. *)
Lemma rr_cuerpo_decrece st i resto :
  rr_inv st -> rr_cola st = i :: resto ->
  exists st', rr_cuerpo q st i resto = Ok st' /\ rr_inv st' /\
    0 <= trabajo st' < trabajo st /\
    length (rr_copia st') = length (rr_copia st).
Proof.
  intros [Hnd Hpos] Hcola. rewrite Hcola in Hnd, Hpos.
  apply NoDup_cons in Hnd as [Hi Hnd].
  apply Forall_cons in Hpos as [(c & Hc & Hrem) Hpos].
  destruct (rr_cuerpo_ok q st i resto c Hc)
    as (c' & _ & _ & Hrem' & _ & _ & ->).
  eexists. split; [done|].
  assert (Hsum : 0 <= suma (map (restante_en (rr_copia st)) resto)).
  { clear -Hpos. induction Hpos as [|j l (c0 & Hc0 & H0) _ IH]; simpl;
      [done|]. unfold restante_en at 1. rewrite Hc0. simpl. lia. }
  assert (Hi' : (i < length (rr_copia st))%nat) by (by eapply lookup_lt_Some).
  unfold rr_inv, trabajo. cbn [rr_cola rr_copia]. rewrite Hcola.
  cbn [map suma foldr]. fold (suma (map (restante_en (rr_copia st)) resto)).
  rewrite (restante_en_lookup _ _ _ Hc).
  case_decide as Hr.
  - rewrite map_app, suma_app, restante_en_insert_ne by done.
    cbn [map suma foldr].
    rewrite (restante_en_lookup _ i c')
      by (by apply list_lookup_insert_eq).
    rewrite Hrem'. repeat split; try lia.
    + apply NoDup_app. split; [done|]. split; [|apply NoDup_singleton].
      intros j Hj ->%list_elem_of_singleton. done.
    + apply Forall_app. split; [by apply rr_inv_insert|].
      constructor; [|constructor]. exists c'.
      rewrite list_lookup_insert_eq by done. split; [done|lia].
    + apply length_insert.
  - rewrite restante_en_insert_ne by done.
    repeat split; try lia; try done.
    + by apply rr_inv_insert.
    + apply length_insert.
Qed.

Lemma trabajo_positivo st i resto :
  rr_inv st -> rr_cola st = i :: resto -> 0 < trabajo st.
Proof.
  intros Hinv Hcola.
  destruct (rr_cuerpo_decrece st i resto Hinv Hcola) as (? & _ & _ & ? & _).
  lia.
Qed.

(** The loop ends, without an exception, within as many passes as there
    are units of remaining work. *)
Lemma rr_while_termina fuel : forall st,
  rr_inv st -> trabajo st <= Z.of_nat fuel ->
  exists st', rr_while fuel q st = Some (Ok st') /\
    length (rr_copia st') = length (rr_copia st).
Proof.
  induction fuel as [|fuel IH]; intros st Hinv Hw.
  - destruct (rr_cola st) as [|i resto] eqn:Hcola.
    + exists st. by rewrite rr_while_nil.
    + pose proof (trabajo_positivo st i resto Hinv Hcola). lia.
  - destruct (rr_cola st) as [|i resto] eqn:Hcola.
    + exists st. by rewrite rr_while_nil.
    + destruct (rr_cuerpo_decrece st i resto Hinv Hcola)
        as (st1 & Hst1 & Hinv1 & Hw1 & Hlen1).
      destruct (IH st1 Hinv1) as (st' & Hst' & Hlen'); [lia|].
      exists st'. cbn [rr_while]. rewrite Hcola, Hst1.
      split; [done|congruence].
Qed.

Lemma rr_inv_inicial procesos :
  Forall (fun p => 0 < tiempo_restante p) procesos ->
  rr_inv (rr_inicial procesos).
Proof.
  intros Hpos. unfold rr_inv, rr_inicial. cbn [rr_cola rr_copia].
  rewrite map_deepcopy. split; [apply NoDup_seq|].
  apply Forall_forall. intros i Hi%elem_of_seq.
  destruct (lookup_lt_is_Some_2 procesos i) as [c Hc]; [lia|].
  exists c. split; [done|].
  rewrite Forall_forall in Hpos. apply Hpos.
  by eapply list_elem_of_lookup_2.
Qed.

Lemma restante_en_seq l : forall pre,
  map (restante_en (pre ++ l)) (seq (length pre) (length l)) =
  map tiempo_restante l.
Proof.
  induction l as [|a l IH]; intros pre; simpl; [done|].
  rewrite (restante_en_lookup _ _ a) by (by apply list_lookup_middle).
  f_equal. specialize (IH (pre ++ [a])).
  rewrite <- app_assoc, length_app in IH. simpl in IH.
  by replace (length pre + 1)%nat with (S (length pre)) in IH by lia.
Qed.

Lemma trabajo_inicial procesos :
  trabajo (rr_inicial procesos) = suma (map tiempo_restante procesos).
Proof.
  unfold trabajo, rr_inicial. cbn [rr_cola rr_copia].
  rewrite map_deepcopy. f_equal. apply (restante_en_seq procesos []).
Qed.

End RoundRobinTrabajo.

(** ** Valid inputs *)

Section Validos.

Lemma valido_positivo l :
  Forall valido l -> Forall (fun r => 0 < tiempo_restante r) l.
Proof.
  intros H. eapply Forall_impl; [exact H|].
  intros p ((_ & Hd & _) & (Hr & _)). simpl. lia.
Qed.

Lemma valido_duracion_positiva l :
  Forall valido l -> Forall (fun r => 0 < duracion r) l.
Proof.
  intros H. eapply Forall_impl; [exact H|].
  by intros p ((_ & Hd & _) & _).
Qed.

Lemma valido_suma_restante l :
  Forall valido l ->
  suma (map tiempo_restante l) = suma (map duracion l).
Proof.
  induction 1 as [|p l (_ & (Hr & _)) _ IH]; simpl; [done|].
  by rewrite Hr, IH.
Qed.

Lemma valido_turnos_de q x l :
  Forall valido l ->
  turnos_de q x l =
  suma (map (fun p => ceil_div (duracion p) q)
          (filter (fun p => pid p = x) l)).
Proof.
  unfold turnos_de. induction 1 as [|p l (_ & (Hr & _)) _ IH]; [done|].
  rewrite filter_cons. case_decide; simpl; by rewrite ?Hr, IH.
Qed.

Lemma ultimo_turno q r :
  0 < q -> 0 < r -> 0 < r - (ceil_div r q - 1) * q <= q.
Proof.
  intros Hq Hr. unfold ceil_div.
  pose proof (Z.mul_div_le (r + q - 1) q Hq).
  pose proof (Z.mul_succ_div_gt (r + q - 1) q Hq).
  nia.
Qed.

End Validos.

(** The chart of Round-Robin on fresh valid processes: the rotation ends
    within [carga procesos] passes, and the planner returns its chart for
    every larger bound. *)
Lemma rr_gantt_existe (q : Z) (procesos : list Proceso) :
  0 < q -> Forall valido procesos ->
  exists gantt,
    rotar (carga procesos) q 0 procesos = Some gantt /\
    forall fuel, (carga procesos <= fuel)%nat ->
      exists procesos',
        RR_planificar fuel {| quantum := q |} procesos =
          Some (Ok (gantt, procesos')).
Proof.
  intros Hq Hval.
  destruct (rotar_termina q Hq (carga procesos) 0 procesos) as [g Hg];
    [done|].
  exists g. split; [done|]. intros fuel Hf.
  pose proof (rotar_mono q _ _ _ _ _ Hg Hf) as Hg'.
  pose proof (RR_planificar_rotar q fuel procesos) as H.
  rewrite Hg' in H. destruct H as (r & Hr & _). by exists r.
Qed.

(** C2.  For a quantum [q > 0] and fresh valid processes,
    [RoundRobinScheduler.planificar] returns, for every bound on the loop
    that is at least [carga procesos], the chart of the FIFO rotation of the
    input list: the head of the queue waits for its arrival, runs for
    [min q remaining], and returns to the tail exactly when work remains.
    The segments of an id number the sum of [ceil(burst / q)] over the
    processes carrying it; with unique ids the run lengths of a process are
    [ceil(burst / q) - 1] quanta followed by a last run in [(0, q]], so a
    process with [burst <= q] has the single run [burst].  P1(burst 10) with
    quantum 3 yields [(P1,0,3); (P1,3,6); (P1,6,9); (P1,9,10)]. *)
Theorem C2_round_robin_planificar (q : Z) (procesos : list Proceso) :
  0 < q -> Forall valido procesos ->
  exists gantt,
    (forall fuel, (carga procesos <= fuel)%nat ->
       rotar fuel q 0 procesos = Some gantt /\
       exists procesos',
         RR_planificar fuel {| quantum := q |} procesos =
           Some (Ok (gantt, procesos'))) /\
    (forall x,
       Z.of_nat (length (de_pid x gantt)) =
       suma (map (fun p => ceil_div (duracion p) q)
               (filter (fun p => pid p = x) procesos))) /\
    (NoDup (map pid procesos) -> forall p, p ∈ procesos ->
       map seg_duracion (de_pid (pid p) gantt) = turnos q (duracion p) /\
       Z.of_nat (length (de_pid (pid p) gantt)) = ceil_div (duracion p) q /\
       (duracion p <= q ->
          map seg_duracion (de_pid (pid p) gantt) = [duracion p])) /\
    (forall p, p ∈ procesos ->
       0 < duracion p - (ceil_div (duracion p) q - 1) * q <= q) /\
    (exists procesos',
       RR_planificar 4 {| quantum := 3 |} [proceso_nuevo "P1" 10 1 0] =
       Some (Ok ([("P1"%string, 0, 3); ("P1"%string, 3, 6);
                  ("P1"%string, 6, 9); ("P1"%string, 9, 10)], procesos'))).
Proof.
  intros Hq Hval.
  pose proof (valido_positivo _ Hval) as Hpos.
  destruct (rotar_termina q Hq (carga procesos) 0 procesos) as [g Hg];
    [done|].
  exists g. split; [|split; [|split; [|split]]].
  - intros fuel Hf.
    pose proof (rotar_mono q _ _ _ _ _ Hg Hf) as Hg'.
    split; [done|].
    pose proof (RR_planificar_rotar q fuel procesos) as H.
    rewrite Hg' in H. destruct H as (r & Hr & _). by exists r.
  - intros x. rewrite <- valido_turnos_de by done.
    by eapply rotar_cuenta.
  - intros Hnd p Hp.
    destruct (rotar_turnos q Hq _ _ _ _ Hpos Hnd Hg) as [H1 _].
    rewrite Forall_forall in Hval.
    destruct (Hval p Hp) as ((_ & Hd & _) & (Hr & _)).
    specialize (H1 p Hp). rewrite Hr in H1. rewrite H1.
    split; [done|]. split.
    + unfold de_pid in *. rewrite <- (length_map seg_duracion), H1.
      by apply turnos_length.
    + intros Hle. apply turnos_uno; lia.
  - intros p Hp. rewrite Forall_forall in Hval.
    destruct (Hval p Hp) as ((_ & Hd & _) & _). by apply ultimo_turno.
  - eexists. vm_compute. reflexivity.
Qed.

Lemma C2_round_robin_planificar_witness :
  exists gantt, forall fuel,
    (carga [proceso_nuevo "P1" 10 1 0] <= fuel)%nat ->
    rotar fuel 3 0 [proceso_nuevo "P1" 10 1 0] = Some gantt /\
    exists procesos',
      RR_planificar fuel {| quantum := 3 |} [proceso_nuevo "P1" 10 1 0] =
        Some (Ok (gantt, procesos')).
Proof.
  destruct (C2_round_robin_planificar 3 [proceso_nuevo "P1" 10 1 0])
    as (g & H & _).
  - lia.
  - repeat constructor; simpl; lia || done.
  - exists g. exact H.
Defined.

(** C4.  For fresh valid processes in any order and a quantum [q > 0], the
    chart of each planner is chronological from time 0: every segment ends
    after it starts, starts never decrease along the chart, and a later
    segment starts no earlier than an earlier one ends. *)
Theorem C4_segmentos_sin_solape (q : Z) (procesos : list Proceso) :
  0 < q -> Forall valido procesos ->
  (exists gantt procesos',
     FCFS_planificar procesos = Ok (gantt, procesos') /\
     cronologico 0 gantt /\ sin_solape gantt) /\
  (exists gantt,
     (forall fuel, (carga procesos <= fuel)%nat ->
        exists procesos',
          RR_planificar fuel {| quantum := q |} procesos =
            Some (Ok (gantt, procesos'))) /\
     cronologico 0 gantt /\ sin_solape gantt).
Proof.
  intros Hq Hval. split.
  - destruct (FCFS_planificar_servir procesos) as (r & Hr & _).
    exists (servir 0 (sort_llegada procesos)), r. split; [done|].
    assert (cronologico 0 (servir 0 (sort_llegada procesos))) as Hc.
    { apply servir_cronologico. rewrite sort_llegada_perm.
      by apply valido_duracion_positiva. }
    split; [done|]. by apply (cronologico_pares _ 0).
  - destruct (rr_gantt_existe q procesos Hq Hval) as (g & Hg & Hrr).
    exists g. split; [done|].
    assert (cronologico 0 g) as Hc.
    { eapply rotar_cronologico; [exact Hq| |exact Hg].
      by apply valido_positivo. }
    split; [done|]. by apply (cronologico_pares _ 0).
Qed.

Lemma C4_segmentos_sin_solape_witness :
  exists gantt procesos',
    FCFS_planificar [proceso_nuevo "P1" 5 1 3; proceso_nuevo "P2" 3 2 0] =
      Ok (gantt, procesos') /\
    cronologico 0 gantt /\ sin_solape gantt.
Proof.
  destruct (C4_segmentos_sin_solape 2
              [proceso_nuevo "P1" 5 1 3; proceso_nuevo "P2" 3 2 0])
    as [H _].
  - lia.
  - repeat constructor; simpl; lia || done.
  - exact H.
Defined.

(** C6 fails as stated: with quantum 20 and P1(burst 5, arrival 3) given
    before P2(burst 3, arrival 0), FCFS serves P2 first and Round-Robin
    serves P1 first. *)
Lemma C6_counterexample :
  ~ (forall q procesos,
       0 < q -> Forall valido procesos ->
       Forall (fun p => duracion p <= q) procesos ->
       forall fuel g1 ps1 g2 ps2,
         FCFS_planificar procesos = Ok (g1, ps1) ->
         RR_planificar fuel {| quantum := q |} procesos =
           Some (Ok (g2, ps2)) ->
         g2 = g1).
Proof.
  intros H.
  specialize (H 20 [proceso_nuevo "P1" 5 1 3; proceso_nuevo "P2" 3 2 0]).
  assert (0 < 20) as H1 by lia.
  specialize (H H1). clear H1.
  assert (Forall valido
            [proceso_nuevo "P1" 5 1 3; proceso_nuevo "P2" 3 2 0]) as H2.
  { repeat constructor; simpl; lia || done. }
  specialize (H H2). clear H2.
  assert (Forall (fun p => duracion p <= 20)
            [proceso_nuevo "P1" 5 1 3; proceso_nuevo "P2" 3 2 0]) as H3.
  { repeat constructor; simpl; lia. }
  specialize (H H3 2%nat _ _ _ _ eq_refl eq_refl).
  discriminate H.
Qed.

(** C6, amended.  For fresh valid processes and a quantum [q] that is at
    least every burst, Round-Robin serves the processes once each, for their
    whole burst, in input order, while FCFS serves them in the same way in
    order of arrival; when the input list is already ordered by arrival, the
    two planners return the same chart. *)
Theorem C6_rr_quantum_grande (q : Z) (procesos : list Proceso) :
  0 < q -> Forall valido procesos ->
  Forall (fun p => duracion p <= q) procesos ->
  (forall fuel, (length procesos <= fuel)%nat ->
     exists procesos',
       RR_planificar fuel {| quantum := q |} procesos =
         Some (Ok (servir 0 procesos, procesos'))) /\
  (exists procesos',
     FCFS_planificar procesos =
       Ok (servir 0 (sort_llegada procesos), procesos')) /\
  (por_llegada procesos ->
     exists gantt,
       (exists procesos', FCFS_planificar procesos = Ok (gantt, procesos')) /\
       (forall fuel, (length procesos <= fuel)%nat ->
          exists procesos',
            RR_planificar fuel {| quantum := q |} procesos =
              Some (Ok (gantt, procesos')))).
Proof.
  intros Hq Hval Hmax.
  assert (forall fuel, (length procesos <= fuel)%nat ->
            exists procesos',
              RR_planificar fuel {| quantum := q |} procesos =
                Some (Ok (servir 0 procesos, procesos'))) as Hrr.
  { intros fuel Hf.
    pose proof (RR_planificar_rotar q fuel procesos) as H.
    rewrite (rotar_servir q procesos fuel 0) in H; [| |done].
    - destruct H as (r & Hr & _). by exists r.
    - rewrite Forall_forall in Hval, Hmax. apply Forall_forall.
      intros p Hp. destruct (Hval p Hp) as ((_ & Hd & _) & (Hr & _)).
      specialize (Hmax p Hp). simpl in Hmax. lia. }
  assert (exists procesos',
            FCFS_planificar procesos =
              Ok (servir 0 (sort_llegada procesos), procesos')) as Hfcfs.
  { destruct (FCFS_planificar_servir procesos) as (r & Hr & _).
    by exists r. }
  split; [done|]. split; [done|].
  intros Hord. exists (servir 0 procesos). split; [|done].
  by rewrite (sort_llegada_id _ Hord) in Hfcfs.
Qed.

Lemma C6_rr_quantum_grande_witness :
  exists procesos',
    RR_planificar 2 {| quantum := 20 |}
      [proceso_nuevo "P1" 5 1 0; proceso_nuevo "P2" 3 2 0] =
    Some (Ok (servir 0 [proceso_nuevo "P1" 5 1 0; proceso_nuevo "P2" 3 2 0],
              procesos')).
Proof.
  destruct (C6_rr_quantum_grande 20
              [proceso_nuevo "P1" 5 1 0; proceso_nuevo "P2" 3 2 0])
    as [H _].
  - lia.
  - repeat constructor; simpl; lia || done.
  - repeat constructor; simpl; lia.
  - apply (H 2%nat). simpl. lia.
Defined.

(** C8.  For fresh valid processes and a quantum [q > 0]: the loop of
    Round-Robin starts in a state that satisfies its invariant, with the sum
    of the bursts as total remaining work; from any state that satisfies the
    invariant and has a non-empty queue, one pass raises nothing, keeps the
    invariant, and strictly decreases the total remaining work of the
    queue, which stays non-negative; hence the planner returns as soon as
    the bound on the loop reaches the sum of the bursts.  FCFS returns a
    chart with exactly one segment per input process. *)
Theorem C8_planificar_termina (q : Z) (procesos : list Proceso) :
  0 < q -> Forall valido procesos ->
  rr_inv (rr_inicial procesos) /\
  trabajo (rr_inicial procesos) = suma (map duracion procesos) /\
  (forall st i resto,
     rr_inv st -> rr_cola st = i :: resto ->
     exists st', rr_cuerpo q st i resto = Ok st' /\ rr_inv st' /\
       0 <= trabajo st' < trabajo st) /\
  (forall fuel, suma (map duracion procesos) <= Z.of_nat fuel ->
     exists gantt procesos',
       RR_planificar fuel {| quantum := q |} procesos =
         Some (Ok (gantt, procesos'))) /\
  (exists gantt procesos',
     FCFS_planificar procesos = Ok (gantt, procesos') /\
     length gantt = length procesos /\
     map seg_pid gantt ≡ₚ map pid procesos).
Proof.
  intros Hq Hval.
  pose proof (valido_positivo _ Hval) as Hpos.
  split; [by apply rr_inv_inicial|].
  split; [by rewrite trabajo_inicial, valido_suma_restante|].
  split; [|split].
  - intros st i resto Hinv Hcola.
    destruct (rr_cuerpo_decrece q Hq st i resto Hinv Hcola)
      as (st' & H1 & H2 & H3 & _).
    by exists st'.
  - intros fuel Hf.
    destruct procesos as [|p0 resto]; [by exists [], []|].
    destruct (rr_while_termina q Hq fuel (rr_inicial (p0 :: resto)))
      as (st' & Hst' & Hlen).
    { by apply rr_inv_inicial. }
    { by rewrite trabajo_inicial, valido_suma_restante. }
    unfold RR_planificar. cbn [quantum].
    unfold rr_inicial in Hst', Hlen. rewrite Hst'.
    cbn [rr_copia] in Hlen. rewrite map_deepcopy in Hlen.
    destruct (publicar_ok (p0 :: resto) (rr_copia st') 0) as (r & -> & _);
      [lia|].
    by exists (rr_gantt st'), r.
  - destruct (FCFS_planificar_servir procesos) as (r & Hr & _).
    exists (servir 0 (sort_llegada procesos)), r. split; [done|].
    split; [by rewrite servir_length, sort_llegada_length|].
    by rewrite servir_pids, sort_llegada_perm.
Qed.

Lemma C8_planificar_termina_witness :
  exists gantt procesos',
    RR_planificar 7 {| quantum := 2 |}
      [proceso_nuevo "P1" 4 1 0; proceso_nuevo "P2" 3 2 0] =
    Some (Ok (gantt, procesos')).
Proof.
  destruct (C8_planificar_termina 2
              [proceso_nuevo "P1" 4 1 0; proceso_nuevo "P2" 3 2 0])
    as (_ & _ & _ & H & _).
  - lia.
  - repeat constructor; simpl; lia || done.
  - apply (H 7%nat). simpl. lia.
Defined.

(** C3 (defect of FCFS).  On P1(burst 5, arrival 3) given before
    P2(burst 3, arrival 0), FCFS runs P2 over [0,3] and P1 over [3,8], and
    then publishes on P1 the start 0 and finish 3 of P2, and on P2 the start
    3 and finish 8 of P1: the copies were sorted by arrival and are read
    back by position.  Round-Robin, which does not sort, publishes on each
    process its own times for the same input.  In both planners the other
    fields of the caller's processes are kept and the remaining work is set
    to 0. *)
Theorem C3_fcfs_publica_por_posicion :
  FCFS_planificar [proceso_nuevo "P1" 5 1 3; proceso_nuevo "P2" 3 2 0] =
    Ok ([("P2"%string, 0, 3); ("P1"%string, 3, 8)],
        [{| pid := "P1"; duracion := 5; prioridad := 1; tiempo_llegada := 3;
            tiempo_restante := 0; tiempo_inicio := Some 0;
            tiempo_fin := Some 3 |};
         {| pid := "P2"; duracion := 3; prioridad := 2; tiempo_llegada := 0;
            tiempo_restante := 0; tiempo_inicio := Some 3;
            tiempo_fin := Some 8 |}]) /\
  RR_planificar 2 {| quantum := 20 |}
    [proceso_nuevo "P1" 5 1 3; proceso_nuevo "P2" 3 2 0] =
    Some (Ok ([("P1"%string, 3, 8); ("P2"%string, 8, 11)],
              [{| pid := "P1"; duracion := 5; prioridad := 1;
                  tiempo_llegada := 3; tiempo_restante := 0;
                  tiempo_inicio := Some 3; tiempo_fin := Some 8 |};
               {| pid := "P2"; duracion := 3; prioridad := 2;
                  tiempo_llegada := 0; tiempo_restante := 0;
                  tiempo_inicio := Some 8; tiempo_fin := Some 11 |}])) /\
  (forall procesos gantt procesos',
     FCFS_planificar procesos = Ok (gantt, procesos') ->
     Forall2 publicado procesos procesos') /\
  (forall fuel rr procesos gantt procesos',
     RR_planificar fuel rr procesos = Some (Ok (gantt, procesos')) ->
     Forall2 publicado procesos procesos').
Proof.
  split; [vm_compute; reflexivity|]. split; [vm_compute; reflexivity|].
  split.
  - intros [|p0 resto] gantt r Hr; [simpl in Hr; simplify_eq; constructor|].
    rewrite FCFS_planificar_cons in Hr.
    destruct (publicar 0 (p0 :: resto) _) as [r'|] eqn:Hr'; [|done].
    simpl in Hr. simplify_eq. by eapply publicar_marco.
  - intros fuel rr [|p0 resto] gantt r Hr;
      [simpl in Hr; simplify_eq; constructor|].
    unfold RR_planificar in Hr.
    destruct (rr_while fuel (quantum rr) _) as [[st|e]|]; [|done..].
    destruct (publicar 0 (p0 :: resto) (rr_copia st)) as [r'|] eqn:Hr';
      [|done].
    simpl in Hr. simplify_eq. by eapply publicar_marco.
Qed.

(** C10.  [RoundRobinScheduler()] without an argument succeeds with
    quantum 4. *)
Theorem C10_quantum_por_defecto :
  RoundRobinScheduler_init None = Ok {| quantum := 4 |}.
Proof. reflexivity. Qed.

(** ** Validation at construction *)

Section Validacion.

Lemma rstrip_vacio s : rstrip s = ""%string <-> blank s = true.
Proof.
  induction s as [|c s IH]; simpl; [done|].
  destruct (rstrip s) as [|c' r] eqn:Hr.
  - destruct (is_space c); simpl.
    + split; [intros _; by apply IH|done].
    + split; [done|discriminate].
  - split; [done|].
    intros [_ Hb]%andb_true_iff. apply IH in Hb. discriminate.
Qed.

Lemma blank_lstrip s : blank (lstrip s) = blank s.
Proof.
  induction s as [|c s IH]; simpl; [done|].
  destruct (is_space c) eqn:Hc; simpl; [done|]. by rewrite Hc.
Qed.

Lemma strip_vacio s : strip s = ""%string <-> blank s = true.
Proof. unfold strip. by rewrite rstrip_vacio, blank_lstrip. Qed.

Lemma pid_rechazado_false v :
  pid_rechazado v = false <-> texto_no_blanco v.
Proof.
  unfold pid_rechazado, texto_no_blanco.
  destruct v as [|b|z|s]; cbn [truthy as_str];
    try (rewrite orb_true_r; split; [done|by intros (? & ? & _)]).
  rewrite negb_involutive, orb_false_iff. split.
  - intros [_ Hs]. exists s. split; [done|].
    destruct (blank s) eqn:Hb; [|done].
    apply strip_vacio in Hb. rewrite Hb in Hs. discriminate.
  - intros (s' & [= <-] & Hb). split.
    + destruct s; [discriminate|done].
    + destruct (String.eqb_spec (strip s) "") as [He|]; [|done].
      apply strip_vacio in He. congruence.
Qed.

Lemma duracion_rechazada_false v :
  duracion_rechazada v = false <-> entero_positivo v.
Proof.
  unfold duracion_rechazada, entero_positivo.
  destruct (as_int v) as [z|].
  - rewrite Z.leb_gt. split.
    + intros H. by exists z.
    + by intros (z' & [= <-] & H).
  - split; [done|by intros (? & ? & _)].
Qed.

Lemma prioridad_rechazada_false v :
  prioridad_rechazada v = false <-> es_entero v.
Proof.
  unfold prioridad_rechazada, es_entero.
  destruct (as_int v) as [z|].
  - split; [by exists z|done].
  - split; [done|by intros (? & ?)].
Qed.

Lemma llegada_rechazada_false v :
  llegada_rechazada v = false <-> entero_no_negativo v.
Proof.
  unfold llegada_rechazada, entero_no_negativo.
  destruct (as_int v) as [z|].
  - rewrite Z.ltb_ge. split.
    + intros H. by exists z.
    + by intros (z' & [= <-] & H).
  - split; [done|by intros (? & ? & _)].
Qed.

(** The constructor accepts exactly when no check rejects, and then yields
    a fresh valid process. *)
Lemma Proceso_init_aceptado v_pid v_dur v_pri v_ll :
  pid_rechazado v_pid = false ->
  duracion_rechazada v_dur = false ->
  prioridad_rechazada v_pri = false ->
  llegada_rechazada (default (PyInt 0) v_ll) = false ->
  exists p, Proceso_init v_pid v_dur v_pri v_ll = Ok p /\ valido p.
Proof.
  intros H1 H2 H3 H4. unfold Proceso_init. rewrite H1, H2, H3, H4.
  apply pid_rechazado_false in H1 as (s & -> & Hb).
  apply duracion_rechazada_false in H2 as (d & -> & Hd).
  apply prioridad_rechazada_false in H3 as (pr & ->).
  apply llegada_rechazada_false in H4 as (ll & -> & Hll).
  simpl. eexists. split; [done|].
  repeat split; simpl; try done.
  intros He%strip_vacio. congruence.
Qed.

Lemma Proceso_init_resultado v_pid v_dur v_pri v_ll :
  Proceso_init v_pid v_dur v_pri v_ll =
  if pid_rechazado v_pid then Raise (ValueError msg_pid)
  else if duracion_rechazada v_dur then Raise (ValueError msg_duracion)
  else if prioridad_rechazada v_pri then Raise (ValueError msg_prioridad)
  else if llegada_rechazada (default (PyInt 0) v_ll)
       then Raise (ValueError msg_llegada)
  else Proceso_init v_pid v_dur v_pri v_ll.
Proof.
  unfold Proceso_init.
  by destruct (pid_rechazado v_pid), (duracion_rechazada v_dur),
    (prioridad_rechazada v_pri),
    (llegada_rechazada (default (PyInt 0) v_ll)).
Qed.

Lemma construido_valido p : construido p -> valido p.
Proof.
  intros (v1 & v2 & v3 & v4 & Hp).
  rewrite Proceso_init_resultado in Hp.
  destruct (pid_rechazado v1) eqn:H1; [done|].
  destruct (duracion_rechazada v2) eqn:H2; [done|].
  destruct (prioridad_rechazada v3) eqn:H3; [done|].
  destruct (llegada_rechazada (default (PyInt 0) v4)) eqn:H4; [done|].
  destruct (Proceso_init_aceptado v1 v2 v3 v4 H1 H2 H3 H4) as (p' & Hp' & Hv).
  congruence.
Qed.

Lemma rr_construido_positivo rr : rr_construido rr -> 0 < quantum rr.
Proof.
  intros (q & Hq). unfold RoundRobinScheduler_init in Hq.
  destruct (Z.leb_spec (default 4 q) 0); [done|].
  by simplify_eq.
Qed.

End Validacion.



(** ** Persisted record of a process *)

Section Registro.

Variable int_of_str : string -> option Z.

Lemma to_dict_pid p : to_dict p !! "pid"%string = Some (PyStr (pid p)).
Proof. unfold to_dict. by simplify_map_eq. Qed.

Lemma to_dict_duracion p :
  to_dict p !! "duracion"%string = Some (PyInt (duracion p)).
Proof. unfold to_dict. by simplify_map_eq. Qed.

Lemma to_dict_prioridad p :
  to_dict p !! "prioridad"%string = Some (PyInt (prioridad p)).
Proof. unfold to_dict. by simplify_map_eq. Qed.

Lemma to_dict_llegada p :
  to_dict p !! "tiempo_llegada"%string = Some (PyInt (tiempo_llegada p)).
Proof. unfold to_dict. by simplify_map_eq. Qed.

Lemma to_dict_dom p :
  dom (to_dict p) =
  ({[ "pid"; "duracion"; "prioridad"; "tiempo_llegada" ]} : gset string)%string.
Proof.
  unfold to_dict. rewrite !dom_insert_L, dom_empty_L. set_solver.
Qed.

Lemma Proceso_init_campos v1 v2 v3 v4 p :
  Proceso_init v1 v2 v3 v4 = Ok p ->
  as_str v1 = Some (pid p) /\ as_int v2 = Some (duracion p) /\
  as_int v3 = Some (prioridad p) /\
  as_int (default (PyInt 0) v4) = Some (tiempo_llegada p) /\
  estado_inicial p.
Proof.
  unfold Proceso_init.
  destruct (pid_rechazado v1); [done|].
  destruct (duracion_rechazada v2); [done|].
  destruct (prioridad_rechazada v3); [done|].
  destruct (llegada_rechazada (default (PyInt 0) v4)); [done|].
  destruct (as_str v1) as [s|]; [|done].
  destruct (as_int v2) as [d|]; [|done].
  destruct (as_int v3) as [pr|]; [|done].
  destruct (as_int (default (PyInt 0) v4)) as [ll|]; [|done].
  by intros [= <-].
Qed.

Lemma from_dict_registro (data : gmap string PyVal) s d pr v_ll ll :
  data !! "pid"%string = Some (PyStr s) ->
  data !! "duracion"%string = Some (PyInt d) ->
  data !! "prioridad"%string = Some (PyInt pr) ->
  data !! "tiempo_llegada"%string = v_ll ->
  default (PyInt 0) v_ll = PyInt ll ->
  strip s <> ""%string -> 0 < d -> 0 <= ll ->
  from_dict int_of_str data = Ok (proceso_nuevo s d pr ll).
Proof.
  intros H1 H2 H3 H4 H5 Hs Hd Hll.
  unfold from_dict, getitem. rewrite H1, H2, H3, H4, H5. simpl.
  destruct (Proceso_init_aceptado (PyStr s) (PyInt d) (PyInt pr)
              (Some (PyInt ll))) as (p & Hp & _).
  - apply pid_rechazado_false. exists s. split; [done|].
    destruct (blank s) eqn:Hb; [|done]. by apply strip_vacio in Hb.
  - apply duracion_rechazada_false. by exists d.
  - apply prioridad_rechazada_false. by exists pr.
  - apply llegada_rechazada_false. by exists ll.
  - rewrite Hp. f_equal.
    destruct (Proceso_init_campos _ _ _ _ _ Hp)
      as (Ha & Hb & Hc & He & Hf & Hg & Hh).
    simpl in *. destruct p; simpl in *. unfold proceso_nuevo.
    by simplify_eq.
Qed.

End Registro.

(** C9.  For a process whose fields satisfy the constraints of the
    constructor (whatever its simulation state), [to_dict] yields a record
    with exactly the keys pid, duracion, prioridad and tiempo_llegada, and
    [from_dict] of that record yields the process with the same id, burst,
    priority and arrival, in the initial state.  From a record without
    tiempo_llegada, [from_dict] never yields an arrival other than 0, and
    yields arrival 0 when the other three entries are those of a valid
    process. *)
Theorem C9_to_dict_from_dict (int_of_str : string -> option Z)
    (p : Proceso) :
  campos_validos p ->
  dom (to_dict p) =
    ({[ "pid"; "duracion"; "prioridad"; "tiempo_llegada" ]}
       : gset string)%string /\
  to_dict p !! "tiempo_restante"%string = None /\
  to_dict p !! "tiempo_inicio"%string = None /\
  to_dict p !! "tiempo_fin"%string = None /\
  from_dict int_of_str (to_dict p) =
    Ok (proceso_nuevo (pid p) (duracion p) (prioridad p) (tiempo_llegada p)) /\
  estado_inicial
    (proceso_nuevo (pid p) (duracion p) (prioridad p) (tiempo_llegada p)) /\
  (forall data p',
     data !! "tiempo_llegada"%string = None ->
     from_dict int_of_str data = Ok p' -> tiempo_llegada p' = 0) /\
  (forall data,
     data !! "tiempo_llegada"%string = None ->
     data !! "pid"%string = Some (PyStr (pid p)) ->
     data !! "duracion"%string = Some (PyInt (duracion p)) ->
     data !! "prioridad"%string = Some (PyInt (prioridad p)) ->
     from_dict int_of_str data =
       Ok (proceso_nuevo (pid p) (duracion p) (prioridad p) 0)).
Proof.
  intros (Hs & Hd & Hll).
  split; [apply to_dict_dom|].
  split; [unfold to_dict; by simplify_map_eq|].
  split; [unfold to_dict; by simplify_map_eq|].
  split; [unfold to_dict; by simplify_map_eq|].
  split.
  { eapply from_dict_registro;
      eauto using to_dict_pid, to_dict_duracion, to_dict_prioridad,
        to_dict_llegada. }
  split; [done|]. split.
  - intros data p' Hnone Hp'. unfold from_dict, getitem in Hp'.
    rewrite Hnone in Hp'. simpl in Hp'.
    destruct (data !! "pid"%string) as [v1|]; [|done]. simpl in Hp'.
    destruct (data !! "duracion"%string) as [v2|]; [|done]. simpl in Hp'.
    destruct (py_int int_of_str v2) as [d|]; [|done]. simpl in Hp'.
    destruct (data !! "prioridad"%string) as [v3|]; [|done]. simpl in Hp'.
    destruct (py_int int_of_str v3) as [pr|]; [|done]. simpl in Hp'.
    apply Proceso_init_campos in Hp' as (_ & _ & _ & H4 & _).
    simpl in H4. by simplify_eq.
  - intros data Hnone H1 H2 H3.
    eapply from_dict_registro; eauto. lia.
Qed.

Lemma C9_to_dict_from_dict_witness :
  from_dict (fun _ => None)
    (to_dict {| pid := "P1"; duracion := 10; prioridad := 1;
                tiempo_llegada := 5; tiempo_restante := 0;
                tiempo_inicio := Some 0; tiempo_fin := Some 10 |}) =
  Ok (proceso_nuevo "P1" 10 1 5).
Proof.
  destruct (C9_to_dict_from_dict (fun _ => None)
              {| pid := "P1"; duracion := 10; prioridad := 1;
                 tiempo_llegada := 5; tiempo_restante := 0;
                 tiempo_inicio := Some 0; tiempo_fin := Some 10 |})
    as (_ & _ & _ & _ & H & _).
  - repeat split; simpl; lia || done.
  - exact H.
Defined.

(** ** Metrics *)

Section Metricas.

Lemma inicios_de_cons x e g :
  inicios_de x (e :: g) =
  if decide (seg_pid e = x) then seg_inicio e :: inicios_de x g
  else inicios_de x g.
Proof. unfold inicios_de. rewrite de_pid_cons. by case_decide. Qed.

Lemma fines_de_cons x e g :
  fines_de x (e :: g) =
  if decide (seg_pid e = x) then seg_fin e :: fines_de x g
  else fines_de x g.
Proof. unfold fines_de. rewrite de_pid_cons. by case_decide. Qed.

(** The two dictionaries built from the chart hold, for each id, the start
    of its first segment and the end of its last one, in chart order. *)
Lemma registrar_fold g : forall (pi0 uf0 : gmap string Z) x,
  (fold_left registrar g (pi0, uf0)).1 !! x =
    match pi0 !! x with
    | Some v => Some v
    | None => head (inicios_de x g)
    end /\
  (fold_left registrar g (pi0, uf0)).2 !! x =
    match last (fines_de x g) with
    | Some v => Some v
    | None => uf0 !! x
    end.
Proof.
  induction g as [|[[y ini] fin] g IH]; intros pi0 uf0 x.
  - simpl. by destruct (pi0 !! x).
  - cbn [fold_left registrar].
    destruct (IH (match pi0 !! y with
                  | Some _ => pi0
                  | None => <[y := ini]> pi0
                  end) (<[y := fin]> uf0) x) as [-> ->].
    rewrite inicios_de_cons, fines_de_cons. unfold seg_pid; simpl.
    destruct (decide (y = x)) as [->|Hne].
    + unfold seg_inicio, seg_fin; simpl. rewrite last_cons. split.
      * destruct (pi0 !! x) eqn:Hx; [by rewrite Hx|].
        by rewrite lookup_insert_eq.
      * destruct (last (fines_de x g)); [done|].
        by rewrite lookup_insert_eq.
    + split.
      * destruct (pi0 !! y); [done|]. by rewrite lookup_insert_ne.
      * by rewrite lookup_insert_ne.
Qed.

Lemma extremos_lookup g x :
  (extremos g).1 !! x = head (inicios_de x g) /\
  (extremos g).2 !! x = last (fines_de x g).
Proof.
  unfold extremos. destruct (registrar_fold g ∅ ∅ x) as [-> ->].
  rewrite !lookup_empty. by destruct (last (fines_de x g)).
Qed.

(** Appends the metrics [m] of process [p] to the accumulators. *)
Lemma medir_metrica (pi uf : gmap string Z) g acc p :
  (forall x, pi !! x = head (inicios_de x g)) ->
  (forall x, uf !! x = last (fines_de x g)) ->
  medir pi uf acc p =
  match metrica_de g p with
  | Some m =>
      {| ac_individuales := <[pid p := m]> (ac_individuales acc);
         ac_respuesta := ac_respuesta acc ++ [m_tiempo_respuesta m];
         ac_espera := ac_espera acc ++ [m_tiempo_espera m];
         ac_retorno := ac_retorno acc ++ [m_tiempo_retorno m] |}
  | None => acc
  end.
Proof.
  intros Hpi Huf. unfold medir, metrica_de. rewrite Hpi, Huf.
  by destruct (head (inicios_de (pid p) g)), (last (fines_de (pid p) g)).
Qed.

Lemma medir_fold (pi uf : gmap string Z) g procesos :
  (forall x, pi !! x = head (inicios_de x g)) ->
  (forall x, uf !! x = last (fines_de x g)) ->
  forall acc,
    let r := fold_left (medir pi uf) procesos acc in
    ac_respuesta r =
      ac_respuesta acc ++ map m_tiempo_respuesta (medidas procesos g) /\
    ac_espera r =
      ac_espera acc ++ map m_tiempo_espera (medidas procesos g) /\
    ac_retorno r =
      ac_retorno acc ++ map m_tiempo_retorno (medidas procesos g) /\
    forall x,
      ac_individuales r !! x =
      match last (omap (metrica_de g)
                    (filter (fun p => pid p = x) procesos)) with
      | Some m => Some m
      | None => ac_individuales acc !! x
      end.
Proof.
  intros Hpi Huf. unfold medidas.
  induction procesos as [|p procesos IH]; intros acc; cbn zeta.
  - simpl. by rewrite !app_nil_r.
  - cbn [fold_left]. rewrite (medir_metrica _ _ g) by done.
    specialize (IH (match metrica_de g p with
                    | Some m =>
                        {| ac_individuales :=
                             <[pid p := m]> (ac_individuales acc);
                           ac_respuesta :=
                             ac_respuesta acc ++ [m_tiempo_respuesta m];
                           ac_espera := ac_espera acc ++ [m_tiempo_espera m];
                           ac_retorno :=
                             ac_retorno acc ++ [m_tiempo_retorno m] |}
                    | None => acc
                    end)).
    cbn zeta in IH. destruct IH as (-> & -> & -> & IH4).
    cbn [omap list_omap].
    repeat split.
    + destruct (metrica_de g p); simpl; [|done]. by rewrite <- app_assoc.
    + destruct (metrica_de g p); simpl; [|done]. by rewrite <- app_assoc.
    + destruct (metrica_de g p); simpl; [|done]. by rewrite <- app_assoc.
    + intros x. rewrite IH4, filter_cons.
      destruct (decide (pid p = x)) as [<-|Hne].
      * cbn [omap list_omap].
        destruct (metrica_de g p) as [m|]; simpl; [|done].
        rewrite last_cons.
        destruct (last _); [done|]. by rewrite lookup_insert_eq.
      * destruct (last _); [done|].
        destruct (metrica_de g p); simpl; [|done].
        by rewrite lookup_insert_ne.
Qed.

Lemma de_pid_vacio x g : x ∉ map seg_pid g -> de_pid x g = [].
Proof.
  induction g as [|e g IH]; simpl; [done|].
  intros [Hne Hx]%not_elem_of_cons. rewrite de_pid_cons.
  rewrite decide_False by done. by apply IH.
Qed.

Lemma de_pid_habitado x g : x ∈ map seg_pid g -> de_pid x g <> [].
Proof.
  induction g as [|e g IH]; simpl; [by intros ?%elem_of_nil|].
  intros [->|Hx]%elem_of_cons; rewrite de_pid_cons.
  - by rewrite decide_True.
  - case_decide; [done|by apply IH].
Qed.

(** In a chronological chart, the first segment of an id has its least
    start and the last one its greatest end. *)
Lemma cronologico_extremos g : forall t x,
  cronologico t g ->
  Forall (fun v => t <= v) (inicios_de x g) /\
  Forall (fun v => t < v) (fines_de x g) /\
  head (inicios_de x g) = minimo (inicios_de x g) /\
  last (fines_de x g) = maximo (fines_de x g).
Proof.
  induction g as [|e g IH]; intros t x Hc.
  - by repeat split.
  - destruct Hc as (Ht & He & Hg).
    destruct (IH _ x Hg) as (Hi & Hf & Hmin & Hmax).
    rewrite inicios_de_cons, fines_de_cons. case_decide.
    + repeat split.
      * constructor; [done|].
        eapply Forall_impl; [exact Hi|]. simpl; intros; lia.
      * constructor; [lia|].
        eapply Forall_impl; [exact Hf|]. simpl; intros; lia.
      * simpl. rewrite <- Hmin.
        destruct (head (inicios_de x g)) as [m|] eqn:Hm; [|done].
        apply head_Some_elem_of in Hm.
        rewrite Forall_forall in Hi. specialize (Hi m Hm).
        f_equal. lia.
      * rewrite last_cons. simpl. rewrite <- Hmax.
        destruct (last (fines_de x g)) as [m|] eqn:Hm; [|done].
        apply last_Some_elem_of in Hm.
        rewrite Forall_forall in Hf. specialize (Hf m Hm).
        f_equal. lia.
    + repeat split; try done.
      * eapply Forall_impl; [exact Hi|]. simpl; intros; lia.
      * eapply Forall_impl; [exact Hf|]. simpl; intros; lia.
Qed.

Lemma promedio_media xs :
  xs <> [] ->
  (promedio xs * Qc_of_Z (Z.of_nat (length xs)) = Qc_of_Z (suma xs))%Qc.
Proof.
  intros Hxs. unfold promedio.
  assert (0 < Z.of_nat (length xs)) as Hn by (destruct xs; simpl; [done|lia]).
  destruct (Z.gtb_spec (Z.of_nat (length xs)) 0); [|lia].
  rewrite Qcmult_comm. apply Qcmult_div_r.
  rewrite <- Z2Qc_inj_0. intros Heq%Z2Qc_inj. lia.
Qed.

End Metricas.

Section MetricasInforme.

Lemma omap_sin_gantt (l : list Proceso) : omap (metrica_de []) l = [].
Proof. induction l as [|p l IH]; [done|]. cbn [omap list_omap]. exact IH. Qed.

Lemma calcular_metricas_vacio procesos gantt :
  procesos = [] \/ gantt = [] ->
  calcular_metricas procesos gantt =
    {| metricas_individuales := ∅;
       tiempo_respuesta_promedio := 0%Qc;
       tiempo_espera_promedio := 0%Qc;
       tiempo_retorno_promedio := 0%Qc |}.
Proof. intros [-> | ->]; [done|by destruct procesos]. Qed.

Lemma calcular_metricas_general procesos gantt :
  let acc :=
    fold_left (medir (extremos gantt).1 (extremos gantt).2) procesos
      {| ac_individuales := ∅; ac_respuesta := [];
         ac_espera := []; ac_retorno := [] |} in
  procesos <> [] -> gantt <> [] ->
  calcular_metricas procesos gantt =
    {| metricas_individuales := ac_individuales acc;
       tiempo_respuesta_promedio := promedio (ac_respuesta acc);
       tiempo_espera_promedio := promedio (ac_espera acc);
       tiempo_retorno_promedio := promedio (ac_retorno acc) |}.
Proof.
  intros acc Hp Hg. subst acc. unfold calcular_metricas.
  destruct procesos as [|p procesos]; [done|].
  destruct gantt as [|e gantt]; [done|].
  by destruct (extremos (e :: gantt)) as [pi uf].
Qed.

(** The report, for every pair of inputs. *)
Lemma calcular_metricas_informe procesos gantt :
  let m := calcular_metricas procesos gantt in
  (forall x,
     metricas_individuales m !! x =
     last (omap (metrica_de gantt)
             (filter (fun p => pid p = x) procesos))) /\
  tiempo_respuesta_promedio m =
    promedio (map m_tiempo_respuesta (medidas procesos gantt)) /\
  tiempo_espera_promedio m =
    promedio (map m_tiempo_espera (medidas procesos gantt)) /\
  tiempo_retorno_promedio m =
    promedio (map m_tiempo_retorno (medidas procesos gantt)).
Proof.
  cbn zeta.
  destruct (decide (procesos = [])) as [->|Hp]; [done|].
  destruct (decide (gantt = [])) as [->|Hg].
  { rewrite calcular_metricas_vacio by by right. unfold medidas.
    rewrite omap_sin_gantt. split; [|done].
    intros x. by rewrite omap_sin_gantt. }
  rewrite calcular_metricas_general by done.
  cbn [metricas_individuales tiempo_respuesta_promedio
       tiempo_espera_promedio tiempo_retorno_promedio].
  destruct (medir_fold (extremos gantt).1 (extremos gantt).2 gantt procesos
              (fun x => proj1 (extremos_lookup gantt x))
              (fun x => proj2 (extremos_lookup gantt x))
              {| ac_individuales := ∅; ac_respuesta := [];
                 ac_espera := []; ac_retorno := [] |})
    as (-> & -> & -> & H4).
  split; [|done].
  intros x. rewrite H4. cbn [ac_individuales]. rewrite lookup_empty.
  by destruct (last _).
Qed.

End MetricasInforme.



(** ** The repository of processes *)

Section RepositorioDict.

Lemma dict_get_None (d : list (string * Proceso)) k :
  dict_get d k = None <-> k ∉ map fst d.
Proof.
  induction d as [|[k' v] d IH]; simpl.
  - split; [intros _ ?%elem_of_nil; done|done].
  - rewrite not_elem_of_cons. case_decide.
    + split; [done|]. intros [? _]. congruence.
    + rewrite IH. split; [by split|by intros [_ ?]].
Qed.

Lemma dict_get_Some (d : list (string * Proceso)) k v :
  dict_get d k = Some v -> (k, v) ∈ d.
Proof.
  induction d as [|[k' v'] d IH]; simpl; [done|].
  case_decide.
  - intros [= ->]. subst. apply elem_of_cons. by left.
  - intros Hd. apply elem_of_cons. right. by apply IH.
Qed.

Lemma dict_set_nuevo (d : list (string * Proceso)) k v :
  dict_get d k = None -> dict_set d k v = d ++ [(k, v)].
Proof.
  induction d as [|[k' v'] d IH]; simpl; [done|].
  case_decide; [done|]. intros Hd. by rewrite IH.
Qed.

Lemma dict_get_set (d : list (string * Proceso)) k v k' :
  dict_get (dict_set d k v) k' =
  if decide (k = k') then Some v else dict_get d k'.
Proof.
  induction d as [|[k0 v0] d IH]; simpl.
  - by case_decide.
  - destruct (decide (k0 = k)) as [->|Hne]; simpl.
    + by destruct (decide (k = k')).
    + destruct (decide (k0 = k')) as [->|Hne'].
      * by rewrite decide_False by done.
      * apply IH.
Qed.

Lemma dict_set_claves (d : list (string * Proceso)) k v :
  map fst (dict_set d k v) =
  if decide (k ∈ map fst d) then map fst d else map fst d ++ [k].
Proof.
  induction d as [|[k0 v0] d IH].
  - cbn [dict_set map fst app]. case_decide as Hin; [|done].
    by apply elem_of_nil in Hin.
  - cbn [dict_set map fst].
    destruct (decide (k0 = k)) as [->|Hne]; cbn [map fst].
    + clear IH. destruct (decide (k ∈ k :: map fst d)) as [Hin|Hin]; [done|].
      exfalso. apply Hin, elem_of_cons. by left.
    + rewrite IH. clear IH.
      destruct (decide (k ∈ map fst d)) as [Hin|Hnin];
        destruct (decide (k ∈ k0 :: map fst d)) as [Hin'|Hin']; try done.
      * exfalso. apply Hin', elem_of_cons. by right.
      * apply elem_of_cons in Hin' as [?|?]; congruence.
Qed.

Lemma dict_set_ok (d : list (string * Proceso)) k v :
  dict_ok d -> dict_ok (dict_set d k v).
Proof.
  unfold dict_ok. intros Hd. rewrite dict_set_claves. case_decide; [done|].
  apply NoDup_app. split; [done|]. split; [|apply NoDup_singleton].
  intros x Hx ->%list_elem_of_singleton. done.
Qed.

Lemma dict_set_bajo_su_pid (d : list (string * Proceso)) p :
  bajo_su_pid d -> bajo_su_pid (dict_set d (pid p) p).
Proof.
  unfold bajo_su_pid. induction 1 as [|[k v] d Hkv Hd IH]; simpl.
  - by repeat constructor.
  - simpl in Hkv. case_decide; constructor; done.
Qed.

Lemma dict_del_claves (d : list (string * Proceso)) k :
  forall x, x ∈ map fst (dict_del d k) -> x ∈ map fst d.
Proof.
  induction d as [|[k' v'] d IH]; intros x; cbn [dict_del map fst]; [done|].
  case_decide.
  - intros Hx. apply elem_of_cons. by right.
  - cbn [map fst]. rewrite !elem_of_cons. intros [?|?]; auto.
Qed.

Lemma dict_del_ok (d : list (string * Proceso)) k : dict_ok d -> dict_ok (dict_del d k).
Proof.
  unfold dict_ok. induction d as [|[k' v'] d IH]; cbn [dict_del map fst];
    [done|].
  intros [Hk' Hd]%NoDup_cons. case_decide; [done|].
  cbn [map fst]. apply NoDup_cons. split; [|by apply IH].
  intros Hin%dict_del_claves. done.
Qed.

Lemma dict_get_del (d : list (string * Proceso)) k k' :
  dict_ok d ->
  dict_get (dict_del d k) k' = if decide (k = k') then None else dict_get d k'.
Proof.
  unfold dict_ok. induction d as [|[k0 v0] d IH];
    cbn [dict_del dict_get map fst].
  - intros _. by case_decide.
  - intros [Hk0 Hd]%NoDup_cons.
    destruct (decide (k0 = k)) as [->|Hne].
    + destruct (decide (k = k')) as [->|Hne']; [|done].
      by apply dict_get_None.
    + cbn [dict_get]. destruct (decide (k0 = k')) as [->|Hne'].
      * by rewrite decide_False by done.
      * by apply IH.
Qed.

Lemma dict_del_filter (d : list (string * Proceso)) k :
  dict_ok d -> dict_del d k = filter (fun kv => kv.1 <> k) d.
Proof.
  unfold dict_ok. induction d as [|[k' v'] d IH]; cbn [dict_del map fst];
    [done|].
  intros [Hk' Hd]%NoDup_cons. rewrite filter_cons. cbn [fst].
  destruct (decide (k' = k)) as [->|Hne].
  - rewrite decide_False by (by intros ?).
    clear IH Hd. induction d as [|[k0 v0] d IH]; [done|].
    cbn [map fst] in Hk'. apply not_elem_of_cons in Hk' as [Hne Hk'].
    rewrite filter_cons. cbn [fst]. rewrite decide_True by done.
    f_equal. by apply IH.
  - rewrite decide_True by done. f_equal. by apply IH.
Qed.

Lemma dict_del_bajo_su_pid (d : list (string * Proceso)) k :
  bajo_su_pid d -> bajo_su_pid (dict_del d k).
Proof.
  unfold bajo_su_pid. induction 1 as [|[k' v'] d Hkv Hd IH];
    cbn [dict_del]; [constructor|].
  case_decide; [done|]. by constructor.
Qed.

Lemma listar_pids (repo : list (string * Proceso)) :
  bajo_su_pid repo -> map pid (listar_procesos repo) = map fst repo.
Proof.
  unfold bajo_su_pid, listar_procesos.
  induction 1 as [|[k v] d Hkv Hd IH]; simpl in *; [done|].
  by rewrite IH, Hkv.
Qed.

End RepositorioDict.

Section RepositorioOperaciones.

Lemma dict_del_ausente (d : list (string * Proceso)) k :
  dict_get d k = None -> dict_del d k = d.
Proof.
  induction d as [|[k' v'] d IH]; cbn [dict_get dict_del]; [done|].
  case_decide; [done|]. intros Hd. by rewrite IH.
Qed.

Lemma dict_del_length (d : list (string * Proceso)) k v :
  dict_get d k = Some v -> length d = S (length (dict_del d k)).
Proof.
  induction d as [|[k' v'] d IH]; cbn [dict_get dict_del]; [done|].
  case_decide; [done|]. intros Hd. simpl. by rewrite (IH Hd).
Qed.

Lemma agregar_proceso_inv (repo : list (string * Proceso)) p :
  dict_ok repo -> bajo_su_pid repo ->
  dict_ok (agregar_proceso repo p).2 /\ bajo_su_pid (agregar_proceso repo p).2.
Proof.
  intros Hok Hpid. unfold agregar_proceso.
  destruct (dict_get repo (pid p)); simpl; [done|].
  split; [by apply dict_set_ok|by apply dict_set_bajo_su_pid].
Qed.

Lemma eliminar_proceso_inv (repo : list (string * Proceso)) x :
  dict_ok repo -> bajo_su_pid repo ->
  dict_ok (eliminar_proceso repo x).2 /\
  bajo_su_pid (eliminar_proceso repo x).2.
Proof.
  intros Hok Hpid. unfold eliminar_proceso.
  destruct (dict_get repo x); simpl; [|done].
  split; [by apply dict_del_ok|by apply dict_del_bajo_su_pid].
Qed.

End RepositorioOperaciones.

Section RepositorioCarga.

Variable int_of_str : string -> option Z.

Lemma cargar_bucle_inv lista : forall repo : list (string * Proceso),
  dict_ok repo -> bajo_su_pid repo ->
  dict_ok (cargar_bucle int_of_str repo lista).1 /\
  bajo_su_pid (cargar_bucle int_of_str repo lista).1.
Proof.
  induction lista as [|datos lista IH]; intros repo Hok Hpid;
    cbn [cargar_bucle]; [done|].
  destruct (from_dict int_of_str datos) as [p|e]; [|done].
  apply IH; [by apply dict_set_ok|by apply dict_set_bajo_su_pid].
Qed.

(** A loop in which every record loads: the contents afterwards. *)
Lemma cargar_bucle_todos lista : forall (repo : list (string * Proceso)) ps,
  Forall2 (fun d p => from_dict int_of_str d = Ok p) lista ps ->
  (cargar_bucle int_of_str repo lista).2 = None /\
  forall x,
    dict_get (cargar_bucle int_of_str repo lista).1 x =
    match last (filter (fun p => pid p = x) ps) with
    | Some p => Some p
    | None => dict_get repo x
    end.
Proof.
  induction lista as [|datos lista IH]; intros repo ps Hps.
  - inversion Hps; subst. by split.
  - inversion Hps as [|? p ? ps' Hp Hps']; subst.
    cbn [cargar_bucle]. rewrite Hp.
    destruct (IH (dict_set repo (pid p) p) ps' Hps') as [-> Hget].
    split; [done|]. intros x. rewrite Hget, filter_cons, dict_get_set.
    destruct (decide (pid p = x)) as [Heq|Hne].
    + rewrite last_cons. by destruct (last _).
    + done.
Qed.

(** A loop stopped by the record [datos]: the contents are those loaded
    before it. *)
Lemma cargar_bucle_falla l1 : forall (repo : list (string * Proceso)) ps1
    datos l2 e,
  Forall2 (fun d p => from_dict int_of_str d = Ok p) l1 ps1 ->
  from_dict int_of_str datos = Raise e ->
  cargar_bucle int_of_str repo (l1 ++ datos :: l2) =
    ((cargar_bucle int_of_str repo l1).1, Some e).
Proof.
  induction l1 as [|d l1 IH]; intros repo ps1 datos l2 e Hps He.
  - cbn [app cargar_bucle]. by rewrite He.
  - inversion Hps as [|? p ? ps' Hp Hps']; subst.
    cbn [app cargar_bucle]. rewrite Hp. by eapply IH.
Qed.

Lemma from_dict_to_dict p :
  campos_validos p -> from_dict int_of_str (to_dict p) = Ok (reiniciar p).
Proof.
  intros (Hs & Hd & Hll).
  eapply (from_dict_registro int_of_str (to_dict p) (pid p) (duracion p)
            (prioridad p) _ (tiempo_llegada p));
    eauto using to_dict_pid, to_dict_duracion, to_dict_prioridad,
      to_dict_llegada.
Qed.

Lemma cargar_bucle_registros (repo : list (string * Proceso)) :
  forall acc : list (string * Proceso),
  NoDup (map fst acc ++ map fst repo) ->
  bajo_su_pid repo ->
  Forall campos_validos (map snd repo) ->
  cargar_bucle int_of_str acc (map to_dict (map snd repo)) =
    (acc ++ map (fun kv => (kv.1, reiniciar kv.2)) repo, None).
Proof.
  induction repo as [|[k v] repo IH]; intros acc Hnd Hpid Hval.
  - simpl. by rewrite app_nil_r.
  - apply Forall_cons in Hpid as [Hk Hpid]. simpl in Hk. subst k.
    cbn [map snd] in Hval. apply Forall_cons in Hval as [Hv Hval].
    cbn [map snd cargar_bucle]. rewrite (from_dict_to_dict v Hv).
    cbn [map fst] in Hnd.
    assert (dict_get acc (pid v) = None) as Hnone.
    { apply dict_get_None. intros Hin.
      apply NoDup_app in Hnd as (_ & Hdis & _).
      apply (Hdis _ Hin), elem_of_cons. by left. }
    replace (pid (reiniciar v)) with (pid v) by done.
    rewrite dict_set_nuevo by done.
    rewrite IH; [|
      by rewrite map_app, <- app_assoc|done|done].
    by rewrite <- app_assoc.
Qed.

End RepositorioCarga.

(** X1.  [agregar_proceso] refuses an id that is already filed and leaves
    the repository as it was (the stored process is not replaced); a new id
    is accepted and filed at the end of the listing, where [obtener_proceso]
    finds it, and the other ids are found as before. *)
Theorem X1_agregar_proceso (repo : list (string * Proceso)) (p : Proceso) :
  match obtener_proceso repo (pid p) with
  | Some _ => agregar_proceso repo p = (false, repo)
  | None =>
      agregar_proceso repo p = (true, repo ++ [(pid p, p)]) /\
      obtener_proceso (agregar_proceso repo p).2 (pid p) = Some p /\
      (forall x, x <> pid p ->
         obtener_proceso (agregar_proceso repo p).2 x =
         obtener_proceso repo x) /\
      listar_procesos (agregar_proceso repo p).2 =
        listar_procesos repo ++ [p] /\
      cantidad_procesos (agregar_proceso repo p).2 =
        S (cantidad_procesos repo)
  end.
Proof.
  unfold obtener_proceso, agregar_proceso.
  destruct (dict_get repo (pid p)) as [p0|] eqn:Hget; [done|].
  cbn [snd]. split; [by rewrite dict_set_nuevo|].
  split; [by rewrite dict_get_set, decide_True|].
  split; [intros x Hx; by rewrite dict_get_set, decide_False|].
  rewrite dict_set_nuevo by done.
  unfold listar_procesos, cantidad_procesos.
  rewrite map_app, length_app. simpl. split; [done|lia].
Qed.

(** X2.  [eliminar_proceso] answers whether the id was filed; afterwards
    the id is not found, every other id is found as before, the remaining
    processes keep their order, and the count drops by one exactly when the
    answer is true. *)
Theorem X2_eliminar_proceso (repo : list (string * Proceso)) (x : string) :
  dict_ok repo ->
  ((eliminar_proceso repo x).1 = true <->
     is_Some (obtener_proceso repo x)) /\
  (eliminar_proceso repo x).2 = filter (fun kv => kv.1 <> x) repo /\
  obtener_proceso (eliminar_proceso repo x).2 x = None /\
  (forall y, y <> x ->
     obtener_proceso (eliminar_proceso repo x).2 y = obtener_proceso repo y) /\
  cantidad_procesos repo =
    (cantidad_procesos (eliminar_proceso repo x).2 +
     if (eliminar_proceso repo x).1 then 1 else 0)%nat.
Proof.
  intros Hok. unfold eliminar_proceso, obtener_proceso, cantidad_procesos.
  destruct (dict_get repo x) as [p|] eqn:Hget; cbn [fst snd].
  - split; [split; [by eexists|done]|].
    split; [by apply dict_del_filter|].
    split; [by rewrite dict_get_del, decide_True|].
    split; [intros y Hy; by rewrite dict_get_del, decide_False|].
    rewrite (dict_del_length _ _ _ Hget). lia.
  - split; [split; [done|by intros [? ?]]|].
    split; [by rewrite <- dict_del_filter, dict_del_ausente|].
    split; [done|]. split; [done|lia].
Qed.

Lemma X2_eliminar_proceso_witness :
  (eliminar_proceso [("P1"%string, proceso_nuevo "P1" 5 1 0);
                     ("P2"%string, proceso_nuevo "P2" 3 2 0)] "P1").2 =
  filter (fun kv => kv.1 <> "P1"%string)
    [("P1"%string, proceso_nuevo "P1" 5 1 0);
     ("P2"%string, proceso_nuevo "P2" 3 2 0)].
Proof.
  destruct (X2_eliminar_proceso
              [("P1"%string, proceso_nuevo "P1" 5 1 0);
               ("P2"%string, proceso_nuevo "P2" 3 2 0)] "P1")
    as (_ & H & _).
  - apply (bool_decide_unpack
             (NoDup (map fst [("P1"%string, proceso_nuevo "P1" 5 1 0);
                              ("P2"%string, proceso_nuevo "P2" 3 2 0)]))).
    vm_compute. exact I.
  - exact H.
Defined.

(** X3.  A repository in which no id is filed twice and every process is
    filed under its own id stays so under [agregar_proceso],
    [eliminar_proceso] and [limpiar]; the repository left by the loading loop
    of [cargar_json] is so whatever it held before; and the processes that
    [listar_procesos] returns have pairwise distinct ids. *)
Theorem X3_repositorio_invariante (repo : list (string * Proceso)) :
  dict_ok repo -> bajo_su_pid repo ->
  (forall p,
     dict_ok (agregar_proceso repo p).2 /\
     bajo_su_pid (agregar_proceso repo p).2) /\
  (forall x,
     dict_ok (eliminar_proceso repo x).2 /\
     bajo_su_pid (eliminar_proceso repo x).2) /\
  (dict_ok (limpiar repo) /\ bajo_su_pid (limpiar repo)) /\
  (forall int_of_str (otro : list (string * Proceso)) lista,
     dict_ok (cargar_registros int_of_str otro lista).1 /\
     bajo_su_pid (cargar_registros int_of_str otro lista).1) /\
  NoDup (map pid (listar_procesos repo)).
Proof.
  intros Hok Hpid.
  split; [intros p; by apply agregar_proceso_inv|].
  split; [intros x; by apply eliminar_proceso_inv|].
  split; [split; [apply NoDup_nil_2|constructor]|].
  split; [|by rewrite listar_pids].
  intros int_of_str otro lista. unfold cargar_registros, limpiar.
  pose proof (cargar_bucle_inv int_of_str lista []) as H.
  destruct (cargar_bucle int_of_str [] lista) as [repo' e]. simpl in *.
  apply H; [apply NoDup_nil_2|constructor].
Qed.

Lemma X3_repositorio_invariante_witness :
  NoDup (map pid (listar_procesos
                    [("P1"%string, proceso_nuevo "P1" 5 1 0);
                     ("P2"%string, proceso_nuevo "P2" 3 2 0)])).
Proof.
  destruct (X3_repositorio_invariante
              [("P1"%string, proceso_nuevo "P1" 5 1 0);
               ("P2"%string, proceso_nuevo "P2" 3 2 0)])
    as (_ & _ & _ & _ & H).
  - apply (bool_decide_unpack
             (NoDup (map fst [("P1"%string, proceso_nuevo "P1" 5 1 0);
                              ("P2"%string, proceso_nuevo "P2" 3 2 0)]))).
    vm_compute. exact I.
  - repeat constructor.
  - exact H.
Defined.

(** X4.  The loading loop of [cargar_json] first empties the repository.
    When every record loads, no error is raised and each id is found with
    the process of the last record carrying it.  When a record fails to
    load (a missing key, a value that is not valid), the call raises an
    [IOError] quoting that failure, and the repository is left with the
    records loaded before it: what it held before the call is lost. *)
Theorem X4_cargar_registros (int_of_str : string -> option Z)
    (repo : list (string * Proceso)) :
  (forall lista ps,
     Forall2 (fun d p => from_dict int_of_str d = Ok p) lista ps ->
     (cargar_registros int_of_str repo lista).2 = None /\
     forall x,
       obtener_proceso (cargar_registros int_of_str repo lista).1 x =
       last (filter (fun p => pid p = x) ps)) /\
  (forall l1 ps1 datos l2 e,
     Forall2 (fun d p => from_dict int_of_str d = Ok p) l1 ps1 ->
     from_dict int_of_str datos = Raise e ->
     (cargar_registros int_of_str repo (l1 ++ datos :: l2)).2 =
       Some (IOError e) /\
     forall x,
       obtener_proceso
         (cargar_registros int_of_str repo (l1 ++ datos :: l2)).1 x =
       last (filter (fun p => pid p = x) ps1)).
Proof.
  split.
  - intros lista ps Hps. unfold cargar_registros, limpiar, obtener_proceso.
    destruct (cargar_bucle_todos int_of_str lista [] ps Hps) as [He Hget].
    destruct (cargar_bucle int_of_str [] lista) as [repo' e].
    simpl in *. subst e. split; [done|].
    intros x. rewrite Hget. by destruct (last _).
  - intros l1 ps1 datos l2 e Hps He.
    unfold cargar_registros, limpiar, obtener_proceso.
    rewrite (cargar_bucle_falla int_of_str l1 [] ps1 datos l2 e Hps He).
    destruct (cargar_bucle_todos int_of_str l1 [] ps1 Hps) as [_ Hget].
    simpl. split; [done|].
    intros x. rewrite Hget. by destruct (last _).
Qed.

(** X5.  Saving and loading back: handed the records that [guardar_json]
    writes for a repository whose processes have valid fields, the loading
    loop of [cargar_json] raises nothing and rebuilds the same ids in the
    same order, each with its process reset to the initial state. *)
Theorem X5_guardar_cargar (int_of_str : string -> option Z)
    (otro repo : list (string * Proceso)) :
  dict_ok repo -> bajo_su_pid repo ->
  Forall campos_validos (listar_procesos repo) ->
  cargar_registros int_of_str otro (registros_json repo) =
    (map (fun kv => (kv.1, reiniciar kv.2)) repo, None) /\
  listar_procesos (cargar_registros int_of_str otro (registros_json repo)).1 =
    reiniciar_todos (listar_procesos repo).
Proof.
  intros Hok Hpid Hval.
  assert (cargar_registros int_of_str otro (registros_json repo) =
            (map (fun kv => (kv.1, reiniciar kv.2)) repo, None)) as H.
  { unfold cargar_registros, registros_json, limpiar, listar_procesos.
    by rewrite (cargar_bucle_registros int_of_str repo []). }
  split; [done|]. rewrite H. unfold listar_procesos, reiniciar_todos.
  cbn [fst]. rewrite !map_map. done.
Qed.

Lemma X5_guardar_cargar_witness :
  listar_procesos
    (cargar_registros (fun _ => None) []
       (registros_json
          [("P1"%string,
            {| pid := "P1"; duracion := 5; prioridad := 1;
               tiempo_llegada := 0; tiempo_restante := 0;
               tiempo_inicio := Some 0; tiempo_fin := Some 5 |})])).1 =
  reiniciar_todos
    (listar_procesos
       [("P1"%string,
         {| pid := "P1"; duracion := 5; prioridad := 1;
            tiempo_llegada := 0; tiempo_restante := 0;
            tiempo_inicio := Some 0; tiempo_fin := Some 5 |})]).
Proof.
  destruct (X5_guardar_cargar (fun _ => None) []
              [("P1"%string,
                {| pid := "P1"; duracion := 5; prioridad := 1;
                   tiempo_llegada := 0; tiempo_restante := 0;
                   tiempo_inicio := Some 0; tiempo_fin := Some 5 |})])
    as [_ H].
  - repeat constructor. by intros ?%elem_of_nil.
  - repeat constructor.
  - repeat constructor; simpl; lia || done.
  - exact H.
Defined.

(** ** Further properties of the planners *)

Section PlanificadoresMas.

Lemma suma_perm (l k : list Z) : l ≡ₚ k -> suma l = suma k.
Proof.
  induction 1 as [|x l k _ IH|x y l|l k m _ IH1 _ IH2]; simpl; lia.
Qed.

Lemma map_perm {A B} (f : A -> B) (l k : list A) :
  l ≡ₚ k -> map f l ≡ₚ map f k.
Proof.
  induction 1 as [|x l k _ IH|x y l|l k m _ IH1 _ IH2]; simpl.
  - done.
  - by rewrite IH.
  - apply Permutation_swap.
  - by rewrite IH1.
Qed.

Lemma suma_concat (l k : list Z) : suma (l ++ k) = suma l + suma k.
Proof. induction l as [|x l IH]; simpl; [done|]. rewrite IH. lia. Qed.

Lemma servir_suma cola : forall t,
  suma (map seg_duracion (servir t cola)) = suma (map duracion cola).
Proof.
  induction cola as [|p cola IH]; intros t; simpl; [done|].
  rewrite IH. unfold seg_duracion, seg_fin, seg_inicio. simpl. lia.
Qed.

Lemma siguiente_suma q p resto :
  suma (map tiempo_restante (siguiente q p resto)) + turno q p =
  suma (map tiempo_restante (p :: resto)).
Proof.
  unfold siguiente, turno. case_decide.
  - rewrite map_app, suma_concat. simpl. lia.
  - simpl. lia.
Qed.

Lemma rotar_suma q fuel : forall t cola g,
  rotar fuel q t cola = Some g ->
  suma (map seg_duracion g) = suma (map tiempo_restante cola).
Proof.
  induction fuel as [|fuel IH]; intros t [|p resto] g Hg;
    try (rewrite rotar_nil in Hg; by simplify_eq); try done.
  cbn [rotar] in Hg. apply fmap_Some in Hg as (g' & Hg' & ->).
  rewrite <- (siguiente_suma q p resto), <- (IH _ _ _ Hg').
  cbn [map suma foldr]. unfold seg_duracion at 1, seg_fin, seg_inicio.
  simpl. fold (suma (map seg_duracion g')). lia.
Qed.

(** The chart of Round-Robin for any processes: the rotation ends within
    [carga procesos] passes, and the planner returns its chart for every
    larger bound. *)
Lemma rr_gantt_general (q : Z) (procesos : list Proceso) :
  0 < q ->
  exists gantt,
    rotar (carga procesos) q 0 procesos = Some gantt /\
    forall fuel, (carga procesos <= fuel)%nat ->
      exists procesos',
        RR_planificar fuel {| quantum := q |} procesos =
          Some (Ok (gantt, procesos')).
Proof.
  intros Hq.
  destruct (rotar_termina q Hq (carga procesos) 0 procesos) as [g Hg];
    [done|].
  exists g. split; [done|]. intros fuel Hf.
  pose proof (rotar_mono q _ _ _ _ _ Hg Hf) as Hg'.
  pose proof (RR_planificar_rotar q fuel procesos) as H.
  rewrite Hg' in H. destruct H as (r & Hr & _). by exists r.
Qed.

(** The first passes of the rotation over [l ++ k] serve [l] in order. *)
Lemma rotar_primera_ronda q l : forall fuel t k g,
  rotar fuel q t (l ++ k) = Some g ->
  exists resto, g = primera_ronda q t l ++ resto.
Proof.
  induction l as [|p l IH]; intros fuel t k g Hg.
  - by exists g.
  - destruct fuel as [|fuel]; [done|].
    cbn [app rotar] in Hg. apply fmap_Some in Hg as (g' & Hg' & ->).
    assert (exists k', siguiente q p (l ++ k) = l ++ k') as [k' Hk'].
    { unfold siguiente. case_decide.
      - eexists. by rewrite <- app_assoc.
      - by exists k. }
    rewrite Hk' in Hg'. destruct (IH _ _ _ _ Hg') as [resto ->].
    by exists resto.
Qed.

(** When no process has more work left than one quantum, the rotation is
    its first round. *)
Lemma rotar_una_ronda q cola : forall fuel t,
  Forall (fun p => tiempo_restante p <= q) cola ->
  (length cola <= fuel)%nat ->
  rotar fuel q t cola = Some (primera_ronda q t cola).
Proof.
  induction cola as [|p cola IH]; intros fuel t Hc Hf.
  - apply rotar_nil.
  - apply Forall_cons in Hc as [Hp Hc]. simpl in Hp.
    destruct fuel as [|fuel]; simpl in Hf; [lia|].
    cbn [rotar primera_ronda]. unfold siguiente.
    rewrite decide_False by (unfold turno; lia).
    by rewrite IH by (done || lia).
Qed.

End PlanificadoresMas.

(** X6.  Busy time.  The durations of the segments of the FCFS chart add up
    to the sum of the bursts, for every list of processes; with a quantum
    [q > 0], those of the Round-Robin chart add up to the sum of the
    remaining work of the processes (their bursts, when they are in the
    initial state): idle time is never recorded as a segment. *)
Theorem X6_tiempo_ocupado (q : Z) (procesos : list Proceso) :
  0 < q ->
  (exists gantt procesos',
     FCFS_planificar procesos = Ok (gantt, procesos') /\
     suma (map seg_duracion gantt) = suma (map duracion procesos)) /\
  (exists gantt,
     (forall fuel, (carga procesos <= fuel)%nat ->
        exists procesos',
          RR_planificar fuel {| quantum := q |} procesos =
            Some (Ok (gantt, procesos'))) /\
     suma (map seg_duracion gantt) = suma (map tiempo_restante procesos) /\
     (Forall estado_inicial procesos ->
        suma (map seg_duracion gantt) = suma (map duracion procesos))).
Proof.
  intros Hq. split.
  - destruct (FCFS_planificar_servir procesos) as (r & Hr & _).
    exists (servir 0 (sort_llegada procesos)), r. split; [done|].
    rewrite servir_suma. apply suma_perm, map_perm, sort_llegada_perm.
  - destruct (rr_gantt_general q procesos Hq) as (g & Hg & Hrr).
    exists g. split; [done|].
    pose proof (rotar_suma q _ _ _ _ Hg) as Hs. split; [done|].
    intros Hini. rewrite Hs. clear Hg Hrr Hs.
    induction Hini as [|p l (Hr & _) _ IH]; simpl; [done|].
    by rewrite Hr, IH.
Qed.

Lemma X6_tiempo_ocupado_witness :
  exists gantt procesos',
    FCFS_planificar [proceso_nuevo "P1" 5 1 3; proceso_nuevo "P2" 3 2 0] =
      Ok (gantt, procesos') /\
    suma (map seg_duracion gantt) =
    suma (map duracion [proceso_nuevo "P1" 5 1 3; proceso_nuevo "P2" 3 2 0]).
Proof.
  destruct (X6_tiempo_ocupado 2
              [proceso_nuevo "P1" 5 1 3; proceso_nuevo "P2" 3 2 0])
    as [H _].
  - lia.
  - exact H.
Defined.

(** X7.  First round of Round-Robin.  With a quantum [q > 0] the chart
    starts with one segment per process, in input order: each process waits
    for its own arrival after the previous segment and runs for
    [min q remaining].  Every process thus gets its first turn before any
    process gets a second one, and a process whose arrival is still ahead
    holds back everyone queued behind it. *)
Theorem X7_primera_ronda (q : Z) (procesos : list Proceso) :
  0 < q ->
  exists gantt resto,
    (forall fuel, (carga procesos <= fuel)%nat ->
       exists procesos',
         RR_planificar fuel {| quantum := q |} procesos =
           Some (Ok (gantt, procesos'))) /\
    gantt = primera_ronda q 0 procesos ++ resto /\
    length (primera_ronda q 0 procesos) = length procesos /\
    map seg_pid (primera_ronda q 0 procesos) = map pid procesos.
Proof.
  intros Hq.
  destruct (rr_gantt_general q procesos Hq) as (g & Hg & Hrr).
  destruct (rotar_primera_ronda q procesos (carga procesos) 0 [] g)
    as [resto Hresto]; [by rewrite app_nil_r|].
  exists g, resto. split; [done|]. split; [done|].
  generalize 0. clear.
  induction procesos as [|p l IH]; intros t; simpl; [done|].
  destruct (IH (Z.max t (tiempo_llegada p) + turno q p)) as [-> ->].
  done.
Qed.

Lemma X7_primera_ronda_witness :
  exists gantt resto,
    (forall fuel,
       (carga [proceso_nuevo "P1" 10 1 0; proceso_nuevo "P2" 5 2 7] <= fuel)%nat ->
       exists procesos',
         RR_planificar fuel {| quantum := 4 |}
           [proceso_nuevo "P1" 10 1 0; proceso_nuevo "P2" 5 2 7] =
         Some (Ok (gantt, procesos'))) /\
    gantt =
      primera_ronda 4 0 [proceso_nuevo "P1" 10 1 0; proceso_nuevo "P2" 5 2 7]
      ++ resto.
Proof.
  destruct (X7_primera_ronda 4
              [proceso_nuevo "P1" 10 1 0; proceso_nuevo "P2" 5 2 7])
    as (g & resto & H1 & H2 & _).
  - lia.
  - by exists g, resto.
Defined.

(** X8.  Round-Robin on processes that were not reset.  When no process has
    work left (as after a run, without [reiniciar]), Round-Robin with a
    quantum [q > 0] still returns one segment per process, in input order,
    and every segment has length 0. *)
Theorem X8_rr_sin_reiniciar (q : Z) (procesos : list Proceso) :
  0 < q -> Forall (fun p => tiempo_restante p = 0) procesos ->
  (forall fuel, (length procesos <= fuel)%nat ->
     exists procesos',
       RR_planificar fuel {| quantum := q |} procesos =
         Some (Ok (primera_ronda q 0 procesos, procesos'))) /\
  map seg_pid (primera_ronda q 0 procesos) = map pid procesos /\
  Forall (fun e => seg_duracion e = 0) (primera_ronda q 0 procesos).
Proof.
  intros Hq Hcero. split; [|split].
  - intros fuel Hf.
    pose proof (RR_planificar_rotar q fuel procesos) as H.
    rewrite (rotar_una_ronda q procesos fuel 0) in H; [| |done].
    + destruct H as (r & Hr & _). by exists r.
    + eapply Forall_impl; [exact Hcero|]. simpl. intros; lia.
  - generalize 0. clear.
    induction procesos as [|p l IH]; intros t; simpl; [done|].
    by rewrite IH.
  - assert (forall t,
              Forall (fun e => seg_duracion e = 0)
                (primera_ronda q t procesos)) as H; [|apply H].
    induction Hcero as [|p l Hp _ IH]; intros t; simpl; [constructor|].
    constructor; [|apply IH].
    unfold seg_duracion, seg_fin, seg_inicio, turno. simpl. lia.
Qed.

Lemma X8_rr_sin_reiniciar_witness :
  exists procesos',
    RR_planificar 1 {| quantum := 3 |}
      [{| pid := "P1"; duracion := 5; prioridad := 1; tiempo_llegada := 0;
          tiempo_restante := 0; tiempo_inicio := Some 0;
          tiempo_fin := Some 5 |}] =
    Some (Ok (primera_ronda 3 0
                [{| pid := "P1"; duracion := 5; prioridad := 1;
                    tiempo_llegada := 0; tiempo_restante := 0;
                    tiempo_inicio := Some 0; tiempo_fin := Some 5 |}],
              procesos')).
Proof.
  destruct (X8_rr_sin_reiniciar 3
              [{| pid := "P1"; duracion := 5; prioridad := 1;
                  tiempo_llegada := 0; tiempo_restante := 0;
                  tiempo_inicio := Some 0; tiempo_fin := Some 5 |}])
    as [H _].
  - lia.
  - repeat constructor.
  - apply (H 1%nat). simpl. lia.
Defined.

Section PlanificadoresLlegada.

Lemma servir_origen cola : forall t e,
  e ∈ servir t cola ->
  exists p, p ∈ cola /\ seg_pid e = pid p /\
    tiempo_llegada p <= seg_inicio e /\ seg_duracion e = duracion p.
Proof.
  induction cola as [|p cola IH]; intros t e; simpl.
  - by intros ?%elem_of_nil.
  - intros [->|He]%elem_of_cons.
    + exists p. split; [apply elem_of_cons; by left|].
      unfold seg_duracion, seg_pid, seg_inicio, seg_fin; cbn [fst snd].
      split; [done|]. split; lia.
    + destruct (IH _ _ He) as (p' & Hp' & H).
      exists p'. split; [apply elem_of_cons; by right|done].
Qed.

Lemma siguiente_origen q p resto r :
  0 < q -> 0 < tiempo_restante p ->
  r ∈ siguiente q p resto ->
  exists r0, r0 ∈ p :: resto /\ pid r = pid r0 /\
    tiempo_llegada r = tiempo_llegada r0 /\
    tiempo_restante r <= tiempo_restante r0.
Proof.
  intros Hq Hp. unfold siguiente, turno. case_decide.
  - intros [Hr|Hr]%elem_of_app.
    + exists r. split; [apply elem_of_cons; by right|]. split; [done|].
      split; [done|lia].
    + apply list_elem_of_singleton in Hr as ->.
      exists p. split; [apply elem_of_cons; by left|]. simpl.
      split; [done|]. split; [done|lia].
  - intros Hr. exists r. split; [apply elem_of_cons; by right|].
    split; [done|]. split; [done|lia].
Qed.

Lemma rotar_origen q fuel : forall t cola g,
  0 < q -> Forall (fun r => 0 < tiempo_restante r) cola ->
  rotar fuel q t cola = Some g ->
  forall e, e ∈ g ->
    exists p, p ∈ cola /\ seg_pid e = pid p /\
      tiempo_llegada p <= seg_inicio e /\
      0 < seg_duracion e <= q /\ seg_duracion e <= tiempo_restante p.
Proof.
  induction fuel as [|fuel IH]; intros t [|p resto] g Hq Hpos Hg;
    try (rewrite rotar_nil in Hg; simplify_eq; by intros ? ?%elem_of_nil);
    try done.
  cbn [rotar] in Hg. apply fmap_Some in Hg as (g' & Hg' & ->).
  apply Forall_cons in Hpos as [Hp Hresto]. simpl in Hp.
  intros e [->|He]%elem_of_cons.
  - exists p. split; [apply elem_of_cons; by left|].
    unfold seg_duracion, seg_pid, seg_inicio, seg_fin, turno; cbn [fst snd].
    split; [done|]. lia.
  - destruct (IH _ _ _ Hq (siguiente_positivo q p resto Hresto) Hg' e He)
      as (r & Hr & Hpid & Hll & Hd & Hrem).
    destruct (siguiente_origen q p resto r Hq Hp Hr)
      as (r0 & Hr0 & Hpid0 & Hll0 & Hrem0).
    exists r0. split; [done|]. split; [congruence|].
    split; [lia|]. split; [done|lia].
Qed.

Lemma servir_contiguo cola : forall t,
  Forall (fun p => tiempo_llegada p <= t /\ 0 <= duracion p) cola ->
  contiguo t (servir t cola).
Proof.
  induction cola as [|p cola IH]; intros t Hc; simpl; [done|].
  apply Forall_cons in Hc as [[Hll Hd] Hc].
  unfold seg_inicio, seg_fin; cbn [fst snd]. split; [lia|].
  replace (Z.max t (tiempo_llegada p)) with t by lia.
  apply IH. eapply Forall_impl; [exact Hc|]. simpl. intros; lia.
Qed.

Lemma rotar_contiguo q fuel : forall t cola g,
  0 < q ->
  Forall (fun p => tiempo_llegada p <= t /\ 0 < tiempo_restante p) cola ->
  rotar fuel q t cola = Some g -> contiguo t g.
Proof.
  induction fuel as [|fuel IH]; intros t [|p resto] g Hq Hc Hg;
    try (rewrite rotar_nil in Hg; by simplify_eq); try done.
  cbn [rotar] in Hg. apply fmap_Some in Hg as (g' & Hg' & ->).
  apply Forall_cons in Hc as [[Hll Hp] Hc].
  cbn [contiguo]. unfold seg_inicio, seg_fin; cbn [fst snd]. split; [lia|].
  eapply IH; [done| |exact Hg'].
  unfold siguiente, turno. case_decide.
  - apply Forall_app. split.
    + eapply Forall_impl; [exact Hc|]. simpl. intros; lia.
    + repeat constructor; simpl; lia.
  - eapply Forall_impl; [exact Hc|]. simpl. intros; lia.
Qed.

Lemma contiguo_fin g : forall t,
  contiguo t g -> fin_de t g = t + suma (map seg_duracion g).
Proof.
  unfold fin_de. induction g as [|e g IH]; intros t Hc; simpl; [lia|].
  destruct Hc as [He Hg]. specialize (IH _ Hg).
  fold (suma (map seg_duracion g)).
  rewrite last_cons. destruct (last g) as [e'|]; simpl in *.
  - unfold seg_duracion at 1. lia.
  - unfold seg_duracion at 1. lia.
Qed.

End PlanificadoresLlegada.

(** X9.  No process runs before it arrives.  For fresh valid processes and
    a quantum [q > 0], every segment of either chart carries the id of an
    input process and starts no earlier than the arrival of that process;
    an FCFS segment lasts the whole burst of the process, a Round-Robin
    segment lasts more than 0 and at most [min q burst]. *)
Theorem X9_no_antes_de_llegar (q : Z) (procesos : list Proceso) :
  0 < q -> Forall valido procesos ->
  (exists gantt procesos',
     FCFS_planificar procesos = Ok (gantt, procesos') /\
     forall e, e ∈ gantt ->
       exists p, p ∈ procesos /\ seg_pid e = pid p /\
         tiempo_llegada p <= seg_inicio e /\ seg_duracion e = duracion p) /\
  (exists gantt,
     (forall fuel, (carga procesos <= fuel)%nat ->
        exists procesos',
          RR_planificar fuel {| quantum := q |} procesos =
            Some (Ok (gantt, procesos'))) /\
     forall e, e ∈ gantt ->
       exists p, p ∈ procesos /\ seg_pid e = pid p /\
         tiempo_llegada p <= seg_inicio e /\
         0 < seg_duracion e <= Z.min q (duracion p)).
Proof.
  intros Hq Hval. split.
  - destruct (FCFS_planificar_servir procesos) as (r & Hr & _).
    exists (servir 0 (sort_llegada procesos)), r. split; [done|].
    intros e He. destruct (servir_origen _ _ _ He) as (p & Hp & H).
    exists p. split; [|done]. by rewrite <- (sort_llegada_perm procesos).
  - destruct (rr_gantt_general q procesos Hq) as (g & Hg & Hrr).
    exists g. split; [done|]. intros e He.
    destruct (rotar_origen q _ _ _ _ Hq (valido_positivo _ Hval) Hg e He)
      as (p & Hp & Hpid & Hll & Hd & Hrem).
    exists p. split; [done|]. split; [done|]. split; [done|].
    rewrite Forall_forall in Hval.
    destruct (Hval p Hp) as (_ & (Hr & _)). lia.
Qed.

Lemma X9_no_antes_de_llegar_witness :
  exists gantt procesos',
    FCFS_planificar [proceso_nuevo "P1" 5 1 3; proceso_nuevo "P2" 3 2 0] =
      Ok (gantt, procesos') /\
    forall e, e ∈ gantt ->
      exists p,
        p ∈ [proceso_nuevo "P1" 5 1 3; proceso_nuevo "P2" 3 2 0] /\
        seg_pid e = pid p /\
        tiempo_llegada p <= seg_inicio e /\ seg_duracion e = duracion p.
Proof.
  destruct (X9_no_antes_de_llegar 2
              [proceso_nuevo "P1" 5 1 3; proceso_nuevo "P2" 3 2 0])
    as [H _].
  - lia.
  - repeat constructor; simpl; lia || done.
  - exact H.
Defined.

(** X10.  No idle time when every process arrives at 0.  For fresh valid
    processes that all arrive at time 0 and a quantum [q > 0], each chart
    starts at 0, every segment starts where the previous one ends, and the
    chart ends at the sum of the bursts. *)
Theorem X10_sin_huecos (q : Z) (procesos : list Proceso) :
  0 < q -> Forall valido procesos ->
  Forall (fun p => tiempo_llegada p = 0) procesos ->
  (exists gantt procesos',
     FCFS_planificar procesos = Ok (gantt, procesos') /\
     contiguo 0 gantt /\ fin_de 0 gantt = suma (map duracion procesos)) /\
  (exists gantt,
     (forall fuel, (carga procesos <= fuel)%nat ->
        exists procesos',
          RR_planificar fuel {| quantum := q |} procesos =
            Some (Ok (gantt, procesos'))) /\
     contiguo 0 gantt /\ fin_de 0 gantt = suma (map duracion procesos)).
Proof.
  intros Hq Hval Hcero. split.
  - destruct (FCFS_planificar_servir procesos) as (r & Hr & _).
    exists (servir 0 (sort_llegada procesos)), r. split; [done|].
    assert (contiguo 0 (servir 0 (sort_llegada procesos))) as Hc.
    { apply servir_contiguo. rewrite sort_llegada_perm.
      rewrite Forall_forall in Hval, Hcero. apply Forall_forall.
      intros p Hp. destruct (Hval p Hp) as ((_ & Hd & _) & _).
      specialize (Hcero p Hp). simpl in Hcero. lia. }
    split; [done|]. rewrite (contiguo_fin _ _ Hc), servir_suma.
    simpl. apply suma_perm, map_perm, sort_llegada_perm.
  - destruct (rr_gantt_general q procesos Hq) as (g & Hg & Hrr).
    exists g. split; [done|].
    assert (contiguo 0 g) as Hc.
    { eapply rotar_contiguo; [exact Hq| |exact Hg].
      rewrite Forall_forall in Hval, Hcero. apply Forall_forall.
      intros p Hp. destruct (Hval p Hp) as ((_ & Hd & _) & (Hr & _)).
      specialize (Hcero p Hp). simpl in Hcero. lia. }
    split; [done|]. rewrite (contiguo_fin _ _ Hc), (rotar_suma q _ _ _ _ Hg).
    simpl. by apply valido_suma_restante.
Qed.

Lemma X10_sin_huecos_witness :
  exists gantt procesos',
    FCFS_planificar [proceso_nuevo "P1" 5 1 0; proceso_nuevo "P2" 3 2 0] =
      Ok (gantt, procesos') /\
    contiguo 0 gantt /\
    fin_de 0 gantt =
    suma (map duracion [proceso_nuevo "P1" 5 1 0; proceso_nuevo "P2" 3 2 0]).
Proof.
  destruct (X10_sin_huecos 2
              [proceso_nuevo "P1" 5 1 0; proceso_nuevo "P2" 3 2 0])
    as [H _].
  - lia.
  - repeat constructor; simpl; lia || done.
  - repeat constructor.
  - exact H.
Defined.

(** ** What the planners publish on the caller's processes *)

Section Publicacion.

Lemma publicar_desde procesos : forall (copia : list Proceso) desde r,
  publicar desde procesos copia = Ok r ->
  length (drop desde copia) = length procesos ->
  Forall2 (fun c o' => tiempo_inicio o' = tiempo_inicio c /\
                       tiempo_fin o' = tiempo_fin c)
    (drop desde copia) r /\
  Forall2 (fun o o' => pid o' = pid o) procesos r.
Proof.
  induction procesos as [|o procesos IH]; intros copia desde r Hr Hlen;
    simpl in Hr.
  - simplify_eq. apply nil_length_inv in Hlen. rewrite Hlen.
    split; constructor.
  - destruct (copia !! desde) as [c|] eqn:Hc; [|done].
    destruct (publicar (S desde) procesos copia) as [r'|] eqn:Hr';
      simpl in Hr; [|done].
    simplify_eq. rewrite (drop_S _ _ _ Hc) in *. simpl in Hlen.
    destruct (IH copia (S desde) r' Hr') as [H1 H2]; [lia|].
    split; constructor; done.
Qed.

Lemma fcfs_for_copias copia : forall gantt t,
  Forall (fun p => tiempo_inicio p = None) copia ->
  Forall2 (fun c e => tiempos_de e c /\ pid c = seg_pid e)
    (fcfs_for copia gantt t).1.1 (servir t copia).
Proof.
  induction copia as [|p copia IH]; intros gantt t Hini.
  - constructor.
  - apply Forall_cons in Hini as [Hp Hini].
    rewrite fcfs_for_cons. cbv zeta. cbn [fst snd servir].
    constructor; [|].
    + unfold tiempos_de, seg_inicio, seg_fin, seg_pid. cbn.
      unfold marcar_inicio. rewrite Hp. cbn.
      by rewrite avanzar_max.
    + rewrite marcar_inicio_duracion, avanzar_max. by apply IH.
Qed.

Lemma Forall2_por_medio {A B C} (P : A -> B -> Prop) (Q : A -> C -> Prop)
    (l : list A) (k : list B) (m : list C) :
  Forall2 P l k -> Forall2 Q l m ->
  Forall2 (fun y z => exists x, P x y /\ Q x z) k m.
Proof.
  intros HP. revert m. induction HP as [|x y l k Hxy _ IH]; intros m HQ.
  - inversion HQ. constructor.
  - inversion HQ as [|? z ? m' Hxz HQ']; subst.
    constructor; [by exists x|by apply IH].
Qed.

Lemma servir_pids_Forall2 cola : forall t,
  Forall2 (fun p e => seg_pid e = pid p) cola (servir t cola).
Proof.
  induction cola as [|p cola IH]; intros t; simpl; constructor; [done|].
  apply IH.
Qed.

Lemma sort_llegada_sin_inicio l :
  Forall (fun p => tiempo_inicio p = None) l ->
  Forall (fun p => tiempo_inicio p = None) (sort_llegada l).
Proof. intros H. by rewrite sort_llegada_perm. Qed.

End Publicacion.



Section PublicacionRoundRobin.

Variable q : Z.

Lemma de_pid_snoc x g e :
  de_pid x (g ++ [e]) =
  de_pid x g ++ (if decide (seg_pid e = x) then [e] else []).
Proof.
  unfold de_pid. rewrite filter_app, (filter_cons _ e), filter_nil.
  by case_decide.
Qed.

Lemma inicios_de_snoc x g e :
  inicios_de x (g ++ [e]) =
  inicios_de x g ++ (if decide (seg_pid e = x) then [seg_inicio e] else []).
Proof.
  unfold inicios_de. rewrite de_pid_snoc, map_app. by case_decide.
Qed.

Lemma fines_de_snoc x g e :
  fines_de x (g ++ [e]) =
  fines_de x g ++ (if decide (seg_pid e = x) then [seg_fin e] else []).
Proof.
  unfold fines_de. rewrite de_pid_snoc, map_app. by case_decide.
Qed.

Lemma head_snoc {A} (l : list A) x :
  head (l ++ [x]) = match head l with Some y => Some y | None => Some x end.
Proof. by destruct l. Qed.

Lemma map_pid_insert (copia : list Proceso) : forall i c c',
  copia !! i = Some c -> pid c' = pid c ->
  map pid (<[i := c']> copia) = map pid copia.
Proof.
  induction copia as [|a copia IH]; intros [|i] c c' Hc Hpid; simpl in *;
    try done.
  - simplify_eq. by rewrite Hpid.
  - f_equal. by eapply IH.
Qed.

Lemma lookup_map_pid (copia : list Proceso) : forall i c,
  copia !! i = Some c -> map pid copia !! i = Some (pid c).
Proof.
  induction copia as [|a copia IH]; intros [|i] c Hc; simpl in *; try done.
  - by simplify_eq.
  - by apply IH.
Qed.

Lemma pids_distintos (copia : list Proceso) i j c cj :
  NoDup (map pid copia) -> copia !! i = Some c -> copia !! j = Some cj ->
  i <> j -> pid c <> pid cj.
Proof.
  intros Hnd Hi Hj Hij Heq. apply Hij.
  eapply NoDup_lookup; [exact Hnd|by apply lookup_map_pid|].
  rewrite Heq. by apply lookup_map_pid.
Qed.

(** The body of the loop, with the object it writes back. *)
Lemma rr_cuerpo_exacto st i resto c :
  rr_copia st !! i = Some c ->
  let t1 := Z.max (rr_tiempo st) (tiempo_llegada c) in
  let run := Z.min q (tiempo_restante c) in
  let c1 := set_tiempo_restante (tiempo_restante c - run)
              (marcar_inicio t1 c) in
  rr_cuerpo q st i resto =
    Ok (if decide (0 < tiempo_restante c - run)
        then {| rr_copia := <[i := c1]> (rr_copia st);
                rr_cola := resto ++ [i];
                rr_gantt := rr_gantt st ++ [(pid c, t1, t1 + run)];
                rr_tiempo := t1 + run |}
        else {| rr_copia :=
                  <[i := set_tiempo_fin (Some (t1 + run)) c1]> (rr_copia st);
                rr_cola := resto;
                rr_gantt := rr_gantt st ++ [(pid c, t1, t1 + run)];
                rr_tiempo := t1 + run |}).
Proof.
  intros Hc t1 run c1. unfold rr_cuerpo. rewrite Hc.
  rewrite avanzar_max. fold t1.
  rewrite marcar_inicio_restante, marcar_inicio_pid. fold run.
  cbn [tiempo_restante set_tiempo_restante]. fold c1.
  destruct (Z.gtb_spec (tiempo_restante c - run) 0) as [Hgt|Hle].
  - by rewrite decide_True by lia.
  - by rewrite decide_False by lia.
Qed.

Lemma marcar_inicio_inicio t c :
  tiempo_inicio (marcar_inicio t c) =
  match tiempo_inicio c with Some v => Some v | None => Some t end.
Proof. unfold marcar_inicio. by destruct (tiempo_inicio c) eqn:H. Qed.

Lemma marcar_inicio_fin t c :
  tiempo_fin (marcar_inicio t c) = tiempo_fin c.
Proof. unfold marcar_inicio. by destruct (tiempo_inicio c). Qed.

(** One pass of the loop keeps the invariant on the published fields. *)
Lemma rr_cuerpo_tiempos st i resto :
  rr_tiempos st -> rr_cola st = i :: resto ->
  exists st', rr_cuerpo q st i resto = Ok st' /\ rr_tiempos st' /\
    map pid (rr_copia st') = map pid (rr_copia st).
Proof.
  intros (Hpids & Hnd & Hlt & Hini & Hfin) Hcola.
  rewrite Hcola in Hnd, Hlt.
  apply NoDup_cons in Hnd as [Hi Hnd].
  destruct (lookup_lt_is_Some_2 (rr_copia st) i) as [c Hc].
  { apply Hlt, elem_of_cons. by left. }
  rewrite (rr_cuerpo_exacto st i resto c Hc). cbv zeta.
  set (t1 := Z.max (rr_tiempo st) (tiempo_llegada c)).
  set (run := Z.min q (tiempo_restante c)).
  set (c1 := set_tiempo_restante (tiempo_restante c - run)
               (marcar_inicio t1 c)).
  set (c2 := set_tiempo_fin (Some (t1 + run)) c1).
  assert (Hpc1 : pid c1 = pid c) by apply marcar_inicio_pid.
  assert (Hpc2 : pid c2 = pid c) by apply marcar_inicio_pid.
  assert (Hi1 : tiempo_inicio c1 =
                head (inicios_de (pid c)
                        (rr_gantt st ++ [(pid c, t1, t1 + run)]))).
  { rewrite inicios_de_snoc. unfold seg_pid at 1; cbn [fst].
    rewrite decide_True by done. rewrite head_snoc, <- (Hini i c Hc).
    subst c1. cbn [tiempo_inicio set_tiempo_restante].
    apply marcar_inicio_inicio. }
  assert (Hotros : forall j cj, rr_copia st !! j = Some cj -> j <> i ->
            inicios_de (pid cj) (rr_gantt st ++ [(pid c, t1, t1 + run)]) =
              inicios_de (pid cj) (rr_gantt st) /\
            fines_de (pid cj) (rr_gantt st ++ [(pid c, t1, t1 + run)]) =
              fines_de (pid cj) (rr_gantt st)).
  { intros j cj Hj Hji.
    assert (pid c <> pid cj) as Hne by by eapply (pids_distintos _ i j).
    rewrite inicios_de_snoc, fines_de_snoc. unfold seg_pid; cbn [fst].
    rewrite !decide_False by done. by rewrite !app_nil_r. }
  assert (Hilt : (i < length (rr_copia st))%nat) by by eapply lookup_lt_Some.
  case_decide as Hr.
  - eexists. split; [done|]. split; [|by apply (map_pid_insert _ i c)].
    unfold rr_tiempos. cbn [rr_copia rr_cola rr_gantt].
    split; [by rewrite (map_pid_insert _ i c)|].
    split.
    { apply NoDup_app. split; [done|]. split; [|apply NoDup_singleton].
      intros j Hj Hj'. apply list_elem_of_singleton in Hj'. by subst. }
    split.
    { intros j Hj. rewrite length_insert. apply Hlt.
      apply elem_of_app in Hj as [Hj|Hj]; apply elem_of_cons; [by right|].
      apply list_elem_of_singleton in Hj. by left. }
    split.
    + intros j cj Hj. destruct (decide (j = i)) as [->|Hji].
      * rewrite list_lookup_insert_eq in Hj by done. simplify_eq.
        by rewrite Hpc1.
      * rewrite list_lookup_insert_ne in Hj by done.
        destruct (Hotros j cj Hj Hji) as [-> _]. by eapply Hini.
    + intros j cj Hj Hnot. destruct (decide (j = i)) as [->|Hji].
      * exfalso. apply Hnot, elem_of_app. right.
        by apply list_elem_of_singleton.
      * rewrite list_lookup_insert_ne in Hj by done.
        destruct (Hotros j cj Hj Hji) as [_ ->]. eapply Hfin; [done|].
        rewrite Hcola. intros [?|?]%elem_of_cons; [done|].
        apply Hnot, elem_of_app. by left.
  - eexists. split; [done|]. split; [|by apply (map_pid_insert _ i c)].
    unfold rr_tiempos. cbn [rr_copia rr_cola rr_gantt].
    split; [by rewrite (map_pid_insert _ i c)|].
    split; [done|].
    split.
    { intros j Hj. rewrite length_insert. apply Hlt, elem_of_cons.
      by right. }
    split.
    + intros j cj Hj. destruct (decide (j = i)) as [->|Hji].
      * rewrite list_lookup_insert_eq in Hj by done. simplify_eq.
        by rewrite Hpc2.
      * rewrite list_lookup_insert_ne in Hj by done.
        destruct (Hotros j cj Hj Hji) as [-> _]. by eapply Hini.
    + intros j cj Hj Hnot. destruct (decide (j = i)) as [->|Hji].
      * rewrite list_lookup_insert_eq in Hj by done. simplify_eq.
        rewrite Hpc2. split; [|split].
        -- subst c1. cbn [tiempo_inicio set_tiempo_fin set_tiempo_restante].
           rewrite marcar_inicio_inicio.
           destruct (tiempo_inicio c); by eexists.
        -- by eexists.
        -- rewrite fines_de_snoc. unfold seg_pid; cbn [fst].
           rewrite decide_True by done. by rewrite last_snoc.
      * rewrite list_lookup_insert_ne in Hj by done.
        destruct (Hotros j cj Hj Hji) as [_ ->]. eapply Hfin; [done|].
        rewrite Hcola. intros [?|?]%elem_of_cons; done.
Qed.

Lemma rr_while_tiempos fuel : forall st st',
  rr_tiempos st -> rr_while fuel q st = Some (Ok st') ->
  rr_tiempos st' /\ rr_cola st' = [] /\
  map pid (rr_copia st') = map pid (rr_copia st).
Proof.
  induction fuel as [|fuel IH]; intros st st' Hinv Hst';
    destruct (rr_cola st) as [|i resto] eqn:Hcola.
  - rewrite rr_while_nil in Hst' by done. by simplify_eq.
  - simpl in Hst'. by rewrite Hcola in Hst'.
  - rewrite rr_while_nil in Hst' by done. by simplify_eq.
  - cbn [rr_while] in Hst'. rewrite Hcola in Hst'.
    destruct (rr_cuerpo_tiempos st i resto Hinv Hcola)
      as (st1 & Hst1 & Hinv1 & Hpid1).
    rewrite Hst1 in Hst'.
    destruct (IH st1 st' Hinv1 Hst') as (H1 & H2 & H3).
    split; [done|]. split; [done|congruence].
Qed.

Lemma rr_tiempos_inicial procesos :
  NoDup (map pid procesos) ->
  Forall (fun p => tiempo_inicio p = None) procesos ->
  rr_tiempos (rr_inicial procesos).
Proof.
  intros Hnd Hini. unfold rr_tiempos, rr_inicial.
  cbn [rr_copia rr_cola rr_gantt]. rewrite !map_deepcopy.
  split; [done|]. split; [apply NoDup_seq|].
  split; [intros i Hi%elem_of_seq; lia|].
  split.
  - intros i c Hc. rewrite Forall_forall in Hini.
    apply Hini. by eapply list_elem_of_lookup_2.
  - intros i c Hc Hnot. exfalso. apply Hnot, elem_of_seq.
    apply lookup_lt_Some in Hc. lia.
Qed.

End PublicacionRoundRobin.

Lemma Forall2_map_pid (l r : list Proceso) :
  Forall2 (fun o o' => pid o' = pid o) l r -> map pid r = map pid l.
Proof. induction 1 as [|o o' l r H _ IH]; simpl; [done|]. by rewrite H, IH. Qed.

(** X12.  What Round-Robin publishes.  With a quantum [q > 0], for
    processes with pairwise distinct ids and no start recorded, Round-Robin
    publishes on every caller's process a start and a finish, and they are
    its own: the start of the first segment carrying its id and the end of
    the last one. *)
Theorem X12_rr_publica (q : Z) (procesos : list Proceso) :
  0 < q -> NoDup (map pid procesos) ->
  Forall (fun p => tiempo_inicio p = None) procesos ->
  exists gantt,
    forall fuel, (carga procesos <= fuel)%nat ->
      exists procesos',
        RR_planificar fuel {| quantum := q |} procesos =
          Some (Ok (gantt, procesos')) /\
        map pid procesos' = map pid procesos /\
        Forall (tiempos_propios gantt) procesos'.
Proof.
  intros Hq Hnd Hini.
  destruct (rr_gantt_general q procesos Hq) as (g & _ & Hrr).
  exists g. intros fuel Hf. destruct (Hrr fuel Hf) as (r & Hr).
  exists r. split; [done|].
  destruct procesos as [|p0 resto].
  { simpl in Hr. simplify_eq. by split. }
  set (l := p0 :: resto) in *.
  unfold RR_planificar in Hr. fold l in Hr. cbn [quantum] in Hr.
  change {| rr_copia := map deepcopy l;
            rr_cola := seq 0 (length (map deepcopy l));
            rr_gantt := []; rr_tiempo := 0 |} with (rr_inicial l) in Hr.
  destruct (rr_while fuel q (rr_inicial l)) as [[st'|e]|] eqn:Hst';
    [|done..].
  destruct (publicar 0 l (rr_copia st')) as [r'|] eqn:Hpub; [|done].
  simpl in Hr. simplify_eq.
  destruct (rr_while_tiempos q fuel _ _ (rr_tiempos_inicial l Hnd Hini) Hst')
    as ((_ & _ & _ & Hi & Hfin) & Hcola & Hpids).
  unfold rr_inicial in Hpids. cbn [rr_copia] in Hpids.
  rewrite map_deepcopy in Hpids.
  destruct (publicar_desde l (rr_copia st') 0 r Hpub) as [Htiempos Hpid].
  { rewrite drop_0, <- (length_map pid), Hpids. by rewrite length_map. }
  rewrite drop_0 in Htiempos.
  pose proof (Forall2_map_pid _ _ Hpid) as Hpr.
  split; [done|].
  apply Forall_lookup. intros i o' Ho'.
  destruct (Forall2_lookup_r _ _ _ _ _ Htiempos Ho') as (c & Hc & Hci & Hcf).
  assert (pid c = pid o') as Hpc.
  { pose proof (lookup_map_pid _ _ _ Hc) as H1.
    pose proof (lookup_map_pid _ _ _ Ho') as H2.
    rewrite Hpids, <- Hpr, H2 in H1. by simplify_eq. }
  destruct (Hfin i c Hc) as (H1 & H2 & H3).
  { rewrite Hcola. by intros ?%elem_of_nil. }
  unfold tiempos_propios. rewrite Hci, Hcf, <- Hpc.
  split; [done|]. split; [done|]. split; [by eapply Hi|done].
Qed.

Lemma X12_rr_publica_witness :
  exists gantt,
    forall fuel,
      (carga [proceso_nuevo "P1" 5 1 3; proceso_nuevo "P2" 3 2 0] <= fuel)%nat ->
      exists procesos',
        RR_planificar fuel {| quantum := 2 |}
          [proceso_nuevo "P1" 5 1 3; proceso_nuevo "P2" 3 2 0] =
          Some (Ok (gantt, procesos')) /\
        map pid procesos' =
          map pid [proceso_nuevo "P1" 5 1 3; proceso_nuevo "P2" 3 2 0] /\
        Forall (tiempos_propios gantt) procesos'.
Proof.
  apply (X12_rr_publica 2
           [proceso_nuevo "P1" 5 1 3; proceso_nuevo "P2" 3 2 0]).
  - lia.
  - apply (bool_decide_unpack
             (NoDup (map pid [proceso_nuevo "P1" 5 1 3;
                              proceso_nuevo "P2" 3 2 0]))).
    vm_compute. exact I.
  - repeat constructor.
Defined.

(** ** What the planners and the report read of a process *)

Section MismosDatos.

Lemma datos_Forall2 (l l' : list Proceso) :
  map datos_de l = map datos_de l' ->
  Forall2 (fun p p' => datos_de p = datos_de p') l l'.
Proof.
  revert l'. induction l as [|p l IH]; intros [|p' l'] H; simpl in H;
    try done; try (by constructor).
  constructor; [congruence|apply IH; congruence].
Qed.

Lemma datos_campos p p' :
  datos_de p = datos_de p' ->
  pid p = pid p' /\ duracion p = duracion p' /\
  tiempo_llegada p = tiempo_llegada p'.
Proof. unfold datos_de. by intros [= -> -> ->]. Qed.

Lemma insertar_datos p p' (l l' : list Proceso) :
  datos_de p = datos_de p' ->
  Forall2 (fun p p' => datos_de p = datos_de p') l l' ->
  Forall2 (fun p p' => datos_de p = datos_de p')
    (insertar_llegada p l) (insertar_llegada p' l').
Proof.
  intros Hp. induction 1 as [|a a' l l' Ha Hl IH]; simpl.
  - by repeat constructor.
  - destruct (datos_campos _ _ Hp) as (_ & _ & ->).
    destruct (datos_campos _ _ Ha) as (_ & _ & ->).
    destruct (tiempo_llegada p' <=? tiempo_llegada a');
      repeat constructor; done.
Qed.

Lemma sort_datos (l l' : list Proceso) :
  Forall2 (fun p p' => datos_de p = datos_de p') l l' ->
  Forall2 (fun p p' => datos_de p = datos_de p')
    (sort_llegada l) (sort_llegada l').
Proof.
  induction 1 as [|a a' l l' Ha Hl IH]; simpl; [constructor|].
  by apply insertar_datos.
Qed.

Lemma servir_datos (l l' : list Proceso) :
  Forall2 (fun p p' => datos_de p = datos_de p') l l' ->
  forall t, servir t l = servir t l'.
Proof.
  induction 1 as [|a a' l l' Ha Hl IH]; intros t; simpl; [done|].
  destruct (datos_campos _ _ Ha) as (-> & -> & ->). by rewrite IH.
Qed.

Lemma metrica_de_datos g p p' :
  datos_de p = datos_de p' -> metrica_de g p = metrica_de g p'.
Proof.
  intros H. destruct (datos_campos _ _ H) as (Hp & Hd & Hl).
  unfold metrica_de. by rewrite Hp, Hd, Hl.
Qed.

Lemma omap_metrica_datos g (l l' : list Proceso) :
  Forall2 (fun p p' => datos_de p = datos_de p') l l' ->
  omap (metrica_de g) l = omap (metrica_de g) l'.
Proof.
  induction 1 as [|a a' l l' Ha Hl IH]; [done|].
  cbn [omap list_omap]. rewrite (metrica_de_datos g a a' Ha).
  destruct (metrica_de g a'); [f_equal|]; exact IH.
Qed.

Lemma filter_pid_datos x (l l' : list Proceso) :
  Forall2 (fun p p' => datos_de p = datos_de p') l l' ->
  Forall2 (fun p p' => datos_de p = datos_de p')
    (filter (fun p => pid p = x) l) (filter (fun p => pid p = x) l').
Proof.
  induction 1 as [|a a' l l' Ha Hl IH]; [constructor|].
  rewrite !filter_cons. destruct (datos_campos _ _ Ha) as (-> & _ & _).
  case_decide; [by constructor|done].
Qed.

Lemma datos_reiniciar l :
  map datos_de (reiniciar_todos l) = map datos_de l.
Proof.
  unfold reiniciar_todos. rewrite map_map. done.
Qed.

Lemma publicado_datos (l r : list Proceso) :
  Forall2 publicado l r -> map datos_de r = map datos_de l.
Proof.
  induction 1 as [|o o' l r (H1 & H2 & _ & H4 & _) _ IH]; simpl; [done|].
  f_equal; [|exact IH]. unfold datos_de. by rewrite H1, H2, H4.
Qed.

Lemma publicado_reiniciar (l r : list Proceso) :
  Forall2 publicado l r -> reiniciar_todos r = reiniciar_todos l.
Proof.
  induction 1 as [|o o' l r (H1 & H2 & H3 & H4 & _) _ IH]; simpl; [done|].
  f_equal; [|exact IH]. unfold reiniciar. by rewrite H1, H2, H3, H4.
Qed.

Lemma FCFS_planificar_marco procesos gantt procesos' :
  FCFS_planificar procesos = Ok (gantt, procesos') ->
  Forall2 publicado procesos procesos'.
Proof.
  destruct procesos as [|p0 resto]; intros Hr;
    [simpl in Hr; simplify_eq; constructor|].
  rewrite FCFS_planificar_cons in Hr.
  destruct (publicar 0 (p0 :: resto) _) as [r'|] eqn:Hr'; [|done].
  simpl in Hr. simplify_eq. by eapply publicar_marco.
Qed.

Lemma RR_planificar_marco fuel rr procesos gantt procesos' :
  RR_planificar fuel rr procesos = Some (Ok (gantt, procesos')) ->
  Forall2 publicado procesos procesos'.
Proof.
  destruct procesos as [|p0 resto]; intros Hr;
    [simpl in Hr; simplify_eq; constructor|].
  unfold RR_planificar in Hr.
  destruct (rr_while fuel (quantum rr) _) as [[st|e]|]; [|done..].
  destruct (publicar 0 (p0 :: resto) (rr_copia st)) as [r'|] eqn:Hr';
    [|done].
  simpl in Hr. simplify_eq. by eapply publicar_marco.
Qed.

Lemma Metricas_eq (m m' : Metricas) :
  metricas_individuales m = metricas_individuales m' ->
  tiempo_respuesta_promedio m = tiempo_respuesta_promedio m' ->
  tiempo_espera_promedio m = tiempo_espera_promedio m' ->
  tiempo_retorno_promedio m = tiempo_retorno_promedio m' ->
  m = m'.
Proof. destruct m, m'; simpl. by intros -> -> -> ->. Qed.

End MismosDatos.

(** X13.  FCFS reads only the id, the burst and the arrival of a process:
    two lists that agree on these give the same chart.  In particular the
    chart does not change when the processes are reset first, so FCFS gives
    the same chart on processes left by an earlier run. *)
Theorem X13_fcfs_solo_datos (procesos otros : list Proceso) :
  map datos_de procesos = map datos_de otros ->
  exists gantt,
    (exists r, FCFS_planificar procesos = Ok (gantt, r)) /\
    (exists r, FCFS_planificar otros = Ok (gantt, r)) /\
    (exists r, FCFS_planificar (reiniciar_todos procesos) = Ok (gantt, r)).
Proof.
  intros Hd.
  destruct (FCFS_planificar_servir procesos) as (r1 & Hr1 & _).
  destruct (FCFS_planificar_servir otros) as (r2 & Hr2 & _).
  destruct (FCFS_planificar_servir (reiniciar_todos procesos))
    as (r3 & Hr3 & _).
  exists (servir 0 (sort_llegada procesos)).
  split; [by exists r1|]. split.
  - exists r2. rewrite Hr2.
    by rewrite <- (servir_datos _ _ (sort_datos _ _ (datos_Forall2 _ _ Hd))).
  - exists r3. rewrite Hr3.
    by rewrite (servir_datos _ _
                  (sort_datos _ _
                     (datos_Forall2 _ _ (datos_reiniciar procesos)))).
Qed.

Lemma X13_fcfs_solo_datos_witness :
  exists gantt,
    (exists r,
       FCFS_planificar [proceso_nuevo "P1" 5 1 0] = Ok (gantt, r)) /\
    (exists r,
       FCFS_planificar
         [{| pid := "P1"; duracion := 5; prioridad := 9;
             tiempo_llegada := 0; tiempo_restante := 0;
             tiempo_inicio := Some 0; tiempo_fin := Some 5 |}] =
       Ok (gantt, r)).
Proof.
  destruct (X13_fcfs_solo_datos [proceso_nuevo "P1" 5 1 0]
              [{| pid := "P1"; duracion := 5; prioridad := 9;
                  tiempo_llegada := 0; tiempo_restante := 0;
                  tiempo_inicio := Some 0; tiempo_fin := Some 5 |}])
    as (g & H1 & H2 & _).
  - reflexivity.
  - by exists g.
Defined.

Lemma calcular_metricas_datos (procesos otros : list Proceso)
    (gantt : list GanttEntry) :
  map datos_de procesos = map datos_de otros ->
  calcular_metricas procesos gantt = calcular_metricas otros gantt.
Proof.
  intros Hd%datos_Forall2.
  destruct (calcular_metricas_informe procesos gantt) as (H1 & H2 & H3 & H4).
  destruct (calcular_metricas_informe otros gantt) as (K1 & K2 & K3 & K4).
  cbn zeta in *. unfold medidas in *.
  pose proof (omap_metrica_datos gantt _ _ Hd) as Ho.
  apply Metricas_eq.
  - apply map_eq. intros x. rewrite H1, K1. f_equal.
    apply omap_metrica_datos, filter_pid_datos, Hd.
  - by rewrite H2, K2, Ho.
  - by rewrite H3, K3, Ho.
  - by rewrite H4, K4, Ho.
Qed.

(** X14.  The report reads only the id, the burst and the arrival of a
    process: two lists that agree on these give the same report for the same
    chart, so it makes no difference whether it is computed from the
    processes before the run, after it, or after a reset. *)
Theorem X14_metricas_solo_datos (procesos otros : list Proceso)
    (gantt : list GanttEntry) :
  map datos_de procesos = map datos_de otros ->
  calcular_metricas procesos gantt = calcular_metricas otros gantt /\
  calcular_metricas (reiniciar_todos procesos) gantt =
    calcular_metricas procesos gantt.
Proof.
  intros Hd. split; [by apply calcular_metricas_datos|].
  apply calcular_metricas_datos, datos_reiniciar.
Qed.

Lemma X14_metricas_solo_datos_witness :
  calcular_metricas [proceso_nuevo "P1" 5 1 0] [("P1"%string, 0, 5)] =
  calcular_metricas
    [{| pid := "P1"; duracion := 5; prioridad := 9; tiempo_llegada := 0;
        tiempo_restante := 0; tiempo_inicio := Some 0;
        tiempo_fin := Some 5 |}] [("P1"%string, 0, 5)].
Proof.
  destruct (X14_metricas_solo_datos [proceso_nuevo "P1" 5 1 0]
              [{| pid := "P1"; duracion := 5; prioridad := 9;
                  tiempo_llegada := 0; tiempo_restante := 0;
                  tiempo_inicio := Some 0; tiempo_fin := Some 5 |}]
              [("P1"%string, 0, 5)]) as [H _].
  - reflexivity.
  - exact H.
Defined.

(** X15.  A simulation can be repeated.  Each simulation of the menu resets
    the processes before planning, and a planner changes nothing that a
    reset does not restore: resetting the processes left by a simulation
    gives the same processes as resetting the ones it was given, so the
    FCFS simulation and the Round-Robin simulation give on them the same
    results as on the originals. *)
Theorem X15_simulacion_repetible (procesos : list Proceso) :
  (forall gantt m procesos',
     ejecutar_fcfs procesos = Some (Ok (gantt, m, procesos')) ->
     reiniciar_todos procesos' = reiniciar_todos procesos /\
     ejecutar_fcfs procesos' = ejecutar_fcfs procesos /\
     forall fuel q,
       ejecutar_round_robin fuel q procesos' =
       ejecutar_round_robin fuel q procesos) /\
  (forall fuel q gantt m procesos',
     ejecutar_round_robin fuel q procesos =
       Some (Some (Ok (gantt, m, procesos'))) ->
     reiniciar_todos procesos' = reiniciar_todos procesos /\
     ejecutar_fcfs procesos' = ejecutar_fcfs procesos /\
     forall fuel' q',
       ejecutar_round_robin fuel' q' procesos' =
       ejecutar_round_robin fuel' q' procesos).
Proof.
  assert (forall procesos' : list Proceso,
            reiniciar_todos procesos' = reiniciar_todos procesos ->
            procesos <> [] ->
            ejecutar_fcfs procesos' = ejecutar_fcfs procesos /\
            forall fuel q,
              ejecutar_round_robin fuel q procesos' =
              ejecutar_round_robin fuel q procesos) as Hrep.
  { intros ps' Hre Hne.
    assert (ps' <> []) as Hne'.
    { intros ->. destruct procesos; [done|discriminate Hre]. }
    unfold ejecutar_fcfs, ejecutar_round_robin.
    destruct procesos as [|p0 l]; [done|]. destruct ps' as [|p0' l']; [done|].
    by rewrite Hre. }
  split.
  - intros gantt m ps' H.
    destruct procesos as [|p0 l]; [done|].
    unfold ejecutar_fcfs in H.
    destruct (FCFS_planificar (reiniciar_todos (p0 :: l)))
      as [[g r]|e] eqn:Hf; simpl in H; [|done].
    simplify_eq.
    pose proof (publicado_reiniciar _ _ (FCFS_planificar_marco _ _ _ Hf))
      as Hre.
    assert (reiniciar_todos ps' = reiniciar_todos (p0 :: l)) as Hre'.
    { rewrite Hre. unfold reiniciar_todos. rewrite map_map. done. }
    split; [done|]. by apply Hrep.
  - intros fuel q gantt m ps' H.
    destruct procesos as [|p0 l]; [done|].
    unfold ejecutar_round_robin in H.
    destruct (q <=? 0); [done|].
    destruct (RoundRobinScheduler_init (Some q)) as [rr|e]; [|by simplify_eq].
    destruct (RR_planificar fuel rr (reiniciar_todos (p0 :: l)))
      as [[[g r]|e]|] eqn:Hf; simpl in H; [|done..].
    simplify_eq.
    pose proof (publicado_reiniciar _ _ (RR_planificar_marco _ _ _ _ _ Hf))
      as Hre.
    assert (reiniciar_todos ps' = reiniciar_todos (p0 :: l)) as Hre'.
    { rewrite Hre. unfold reiniciar_todos. rewrite map_map. done. }
    split; [done|]. by apply Hrep.
Qed.

(** ** The report of a simulation *)

Section InformeSimulacion.

Lemma metrica_de_Some g p :
  is_Some (metrica_de g p) <-> pid p ∈ map seg_pid g.
Proof.
  split.
  - intros Hs. destruct (decide (pid p ∈ map seg_pid g)) as [|Hn]; [done|].
    unfold metrica_de, inicios_de in Hs.
    rewrite (de_pid_vacio _ _ Hn) in Hs. by destruct Hs.
  - intros Hp%de_pid_habitado. unfold metrica_de, inicios_de, fines_de.
    destruct (de_pid (pid p) g) as [|e l] eqn:Hl; [done|].
    destruct (last (map seg_fin (e :: l))) as [fin|] eqn:Hfin.
    + by eexists.
    + by apply last_None in Hfin.
Qed.

Lemma filter_pid_unico (l : list Proceso) p :
  NoDup (map pid l) -> p ∈ l -> filter (fun r => pid r = pid p) l = [p].
Proof.
  induction l as [|a l IH]; simpl; [by intros _ ?%elem_of_nil|].
  intros [Ha Hnd]%NoDup_cons Hp. rewrite filter_cons.
  apply elem_of_cons in Hp as [->|Hp].
  - rewrite decide_True by done. f_equal.
    clear IH Hnd. induction l as [|b l IH]; [done|].
    simpl in Ha. apply not_elem_of_cons in Ha as [Hab Ha].
    rewrite filter_cons, decide_False by done. by apply IH.
  - rewrite decide_False; [by apply IH|].
    intros Heq. apply Ha. rewrite Heq. apply elem_of_map. by exists p.
Qed.

Lemma pid_unico (l : list Proceso) p r :
  NoDup (map pid l) -> p ∈ l -> r ∈ l -> pid r = pid p -> r = p.
Proof.
  intros Hnd Hp Hr Heq.
  assert (r ∈ filter (fun r => pid r = pid p) l) as Hin
    by (by apply list_elem_of_filter).
  rewrite (filter_pid_unico l p Hnd Hp) in Hin.
  by apply list_elem_of_singleton in Hin.
Qed.

Lemma servir_de_pid cola : forall t p,
  NoDup (map pid cola) -> p ∈ cola ->
  exists s, tiempo_llegada p <= s /\
    de_pid (pid p) (servir t cola) = [(pid p, s, s + duracion p)].
Proof.
  induction cola as [|a cola IH]; intros t p Hnd Hp;
    [by apply elem_of_nil in Hp|].
  cbn [map] in Hnd. apply NoDup_cons in Hnd as [Ha Hnd].
  cbn [servir]. cbv zeta. rewrite de_pid_cons.
  unfold seg_pid at 1; cbn [fst].
  apply elem_of_cons in Hp as [->|Hp].
  - rewrite decide_True by done.
    exists (Z.max t (tiempo_llegada a)). split; [lia|]. f_equal.
    apply de_pid_vacio. by rewrite servir_pids.
  - rewrite decide_False; [by apply IH|].
    intros Heq. change (pid a = pid p) in Heq.
    apply Ha. rewrite Heq. apply elem_of_map. by exists p.
Qed.

Lemma cronologico_debil g : forall t t',
  t' <= t -> cronologico t g -> cronologico t' g.
Proof.
  destruct g as [|e g]; intros t t' Ht; simpl; [done|].
  intros (H1 & H2 & H3). split; [lia|done].
Qed.

Lemma cronologico_de_pid x g : forall t,
  cronologico t g -> cronologico t (de_pid x g).
Proof.
  induction g as [|e g IH]; intros t; [done|].
  intros (H1 & H2 & H3). rewrite de_pid_cons. case_decide.
  - split; [done|]. split; [done|]. by apply IH.
  - apply IH. eapply cronologico_debil; [|exact H3]. lia.
Qed.

(** In a chronological chart, the segments take at least their total
    duration between the first start and the last end. *)
Lemma cronologico_extension l : forall t,
  cronologico t l -> l <> [] ->
  exists s f, head (map seg_inicio l) = Some s /\
    last (map seg_fin l) = Some f /\
    t <= s /\ s + suma (map seg_duracion l) <= f.
Proof.
  induction l as [|e l IH]; intros t Hc Hne; [done|].
  destruct Hc as (H1 & H2 & H3).
  destruct l as [|e2 l].
  - exists (seg_inicio e), (seg_fin e). simpl.
    unfold seg_duracion. repeat split; lia.
  - destruct (IH _ H3) as (s2 & f & Hs2 & Hf & Ht & Hsum); [done|].
    exists (seg_inicio e), f. split; [done|]. split.
    + cbn [map] in *. by rewrite last_cons_cons.
    + split; [done|].
      change (suma (map seg_duracion (e :: e2 :: l)))
        with (seg_duracion e + suma (map seg_duracion (e2 :: l))).
      unfold seg_duracion at 1. lia.
Qed.

Lemma suma_replicate n (v : Z) : suma (replicate n v) = Z.of_nat n * v.
Proof. induction n as [|n IH]; simpl; [done|]. rewrite IH. lia. Qed.

Lemma suma_turnos q r : 0 < q -> 0 < r -> suma (turnos q r) = r.
Proof.
  intros Hq Hr. unfold turnos.
  pose proof (ceil_div_positivo q Hq r Hr).
  rewrite suma_concat, suma_replicate. cbn [suma foldr].
  rewrite Z2Nat.id by lia. ring.
Qed.

Lemma reiniciar_todos_valido procesos :
  Forall campos_validos procesos -> Forall valido (reiniciar_todos procesos).
Proof.
  unfold reiniciar_todos. induction 1 as [|p l Hp _ IH]; simpl;
    constructor; [|done].
  by split.
Qed.

Lemma reiniciar_todos_pids procesos :
  map pid (reiniciar_todos procesos) = map pid procesos.
Proof. unfold reiniciar_todos. by rewrite map_map. Qed.

(** The entry of a process with a unique id in the report of a chart. *)
Lemma metrica_unica (procesos : list Proceso) gantt p :
  NoDup (map pid procesos) -> p ∈ procesos ->
  metricas_individuales (calcular_metricas procesos gantt) !! pid p =
  metrica_de gantt p.
Proof.
  intros Hnd Hp.
  destruct (calcular_metricas_informe procesos gantt) as (H1 & _).
  cbn zeta in H1. rewrite H1, (filter_pid_unico _ _ Hnd Hp).
  cbn [omap list_omap]. by destruct (metrica_de gantt p).
Qed.

(** The metrics of a process against the FCFS chart of a list in which its
    id is unique. *)
Lemma metrica_fcfs (cola : list Proceso) p :
  NoDup (map pid cola) -> p ∈ cola ->
  exists mi, metrica_de (servir 0 (sort_llegada cola)) p = Some mi /\
    0 <= m_tiempo_respuesta mi /\
    m_tiempo_espera mi = m_tiempo_respuesta mi /\
    m_tiempo_retorno mi = m_tiempo_respuesta mi + duracion p.
Proof.
  intros Hnd Hp.
  destruct (servir_de_pid (sort_llegada cola) 0 p) as (s & Hs & Hde).
  { by rewrite sort_llegada_perm. }
  { by rewrite sort_llegada_perm. }
  unfold metrica_de, inicios_de, fines_de. rewrite Hde. simpl.
  eexists. split; [done|]. simpl. unfold seg_inicio, seg_fin. simpl. lia.
Qed.

(** The metrics of a fresh valid process against the Round-Robin chart of a
    list in which its id is unique. *)
Lemma metrica_rr q fuel (cola : list Proceso) g p :
  0 < q -> Forall valido cola -> NoDup (map pid cola) -> p ∈ cola ->
  rotar fuel q 0 cola = Some g ->
  exists mi, metrica_de g p = Some mi /\
    0 <= m_tiempo_respuesta mi <= m_tiempo_espera mi /\
    m_tiempo_retorno mi = m_tiempo_espera mi + duracion p.
Proof.
  intros Hq Hval Hnd Hp Hg.
  pose proof (valido_positivo _ Hval) as Hpos.
  destruct (rotar_turnos q Hq _ _ _ _ Hpos Hnd Hg) as [Hturnos _].
  specialize (Hturnos p Hp).
  rewrite Forall_forall in Hval.
  destruct (Hval p Hp) as ((_ & Hd & _) & (Hr & _)).
  rewrite Hr in Hturnos.
  assert (suma (map seg_duracion (de_pid (pid p) g)) = duracion p) as Hsum
    by (by rewrite Hturnos, suma_turnos).
  assert (de_pid (pid p) g <> []) as Hne.
  { intros Hnil. rewrite Hnil in Hsum. simpl in Hsum. lia. }
  pose proof (rotar_cronologico q Hq _ _ _ _ Hpos Hg) as Hc.
  destruct (cronologico_extension _ _ (cronologico_de_pid (pid p) _ _ Hc) Hne)
    as (s & f & Hs & Hf & _ & Hext).
  assert (tiempo_llegada p <= s) as Hll.
  { destruct (de_pid (pid p) g) as [|e l] eqn:Hl; [done|].
    simpl in Hs. simplify_eq.
    assert (e ∈ de_pid (pid p) g) as He
      by (rewrite Hl; apply elem_of_cons; by left).
    apply list_elem_of_filter in He as [Hpid He].
    destruct (rotar_origen q _ _ _ _ Hq Hpos Hg e He)
      as (r & Hr' & Hpr & Hlr & _).
    assert (r = p) as -> by (eapply pid_unico; eauto; congruence).
    done. }
  unfold metrica_de, inicios_de, fines_de. rewrite Hs, Hf.
  eexists. split; [done|]. simpl. lia.
Qed.

End InformeSimulacion.

Lemma RoundRobinScheduler_init_ok q :
  0 < q -> RoundRobinScheduler_init (Some q) = Ok {| quantum := q |}.
Proof.
  intros Hq. unfold RoundRobinScheduler_init. simpl.
  destruct (Z.leb_spec q 0); [lia|done].
Qed.



(** X17.  Entries of the report.  The report has an entry for an id exactly
    when the id is that of an input process and appears in the chart: a
    process without a segment gets no entry, and a segment whose id is not
    that of an input process is ignored. *)
Theorem X17_metricas_claves (procesos : list Proceso)
    (gantt : list GanttEntry) (x : string) :
  is_Some (metricas_individuales (calcular_metricas procesos gantt) !! x) <->
  x ∈ map pid procesos /\ x ∈ map seg_pid gantt.
Proof.
  destruct (calcular_metricas_informe procesos gantt) as (H1 & _).
  cbn zeta in H1. rewrite H1. split.
  - intros [mi Hmi]. apply last_Some_elem_of in Hmi.
    apply list_elem_of_omap in Hmi as (p & Hp & Hm).
    apply list_elem_of_filter in Hp as [<- Hp]. split.
    + apply elem_of_map. by exists p.
    + apply metrica_de_Some. by eexists.
  - intros [(p & -> & Hp)%elem_of_map Hg].
    apply metrica_de_Some in Hg as [mi Hmi].
    destruct (last (omap (metrica_de gantt)
                      (filter (fun r => pid r = pid p) procesos)))
      as [m|] eqn:Hlast; [by eexists|].
    apply last_None in Hlast.
    assert (mi ∈ omap (metrica_de gantt)
                   (filter (fun r => pid r = pid p) procesos)) as Hin.
    { apply list_elem_of_omap. exists p. split; [|done].
      by apply list_elem_of_filter. }
    rewrite Hlast in Hin. by apply elem_of_nil in Hin.
Qed.

Lemma Proceso_init_aceptado_str v_pid d pr ll :
  pid_rechazado v_pid = false ->
  duracion_rechazada (PyInt d) = false ->
  prioridad_rechazada (PyInt pr) = false ->
  llegada_rechazada (default (PyInt 0) (Some (PyInt ll))) = false ->
  exists p, Proceso_init v_pid (PyInt d) (PyInt pr) (Some (PyInt ll)) = Ok p.
Proof.
  intros H1 H2 H3 H4.
  destruct (Proceso_init_aceptado v_pid (PyInt d) (PyInt pr)
              (Some (PyInt ll)) H1 H2 H3 H4) as (p & Hp & _).
  by exists p.
Qed.

(** X18.  Missing keys in [from_dict].  A record without pid raises
    [KeyError] for pid whatever else it holds; with pid but without duracion
    it raises [KeyError] for duracion; with pid and a duracion that converts
    to an integer but without prioridad it raises [KeyError] for prioridad.
    A [KeyError] always names one of these three keys, which the record
    lacks: tiempo_llegada is never required. *)
Theorem X18_from_dict_claves (int_of_str : string -> option Z)
    (data : gmap string PyVal) :
  (data !! "pid"%string = None ->
     from_dict int_of_str data = Raise (KeyError "pid")) /\
  (is_Some (data !! "pid"%string) -> data !! "duracion"%string = None ->
     from_dict int_of_str data = Raise (KeyError "duracion")) /\
  (forall v d,
     is_Some (data !! "pid"%string) ->
     data !! "duracion"%string = Some v -> py_int int_of_str v = Ok d ->
     data !! "prioridad"%string = None ->
     from_dict int_of_str data = Raise (KeyError "prioridad")) /\
  (forall k,
     from_dict int_of_str data = Raise (KeyError k) ->
     data !! k = None /\
     (k = "pid" \/ k = "duracion" \/ k = "prioridad")%string).
Proof.
  unfold from_dict, getitem. split; [|split; [|split]].
  - by intros ->.
  - intros [v1 ->] ->. done.
  - intros v d [v1 ->] -> Hd ->. simpl. by rewrite Hd.
  - intros k.
    destruct (data !! "pid"%string) as [v1|] eqn:H1; simpl;
      [|intros [= <-]; auto].
    destruct (data !! "duracion"%string) as [v2|] eqn:H2; simpl;
      [|intros [= <-]; auto].
    destruct (py_int int_of_str v2) as [d|e] eqn:Hd; simpl.
    + destruct (data !! "prioridad"%string) as [v3|] eqn:H3; simpl;
        [|intros [= <-]; auto].
      destruct (py_int int_of_str v3) as [pr|e] eqn:Hpr; simpl.
      * destruct (py_int int_of_str
                    (default (PyInt 0) (data !! "tiempo_llegada"%string)))
          as [ll|e] eqn:Hll; simpl.
        -- rewrite Proceso_init_resultado.
           destruct (pid_rechazado v1) eqn:Hr1; [done|].
           destruct (duracion_rechazada (PyInt d)) eqn:Hrd; [done|].
           destruct (prioridad_rechazada (PyInt pr)) eqn:Hrp; [done|].
           destruct (llegada_rechazada (default (PyInt 0) (Some (PyInt ll))))
             eqn:Hrl; [done|].
           intros Hk. exfalso.
           destruct (Proceso_init_aceptado_str v1 d pr ll) as [p Hp];
             [done..|]. rewrite Hp in Hk. done.
        -- intros [= ->]. exfalso.
           destruct (default (PyInt 0) (data !! "tiempo_llegada"%string))
             as [|b|z|s]; simpl in Hll; try done.
           by destruct (int_of_str s).
      * intros [= ->]. exfalso.
        destruct v3 as [|b|z|s]; simpl in Hpr; try done.
        by destruct (int_of_str s).
    + intros [= ->]. exfalso.
      destruct v2 as [|b|z|s]; simpl in Hd; try done.
      by destruct (int_of_str s).
Qed.

(** X19.  What the constructor builds.  When [Proceso.__init__] accepts its
    arguments, the id it was given is a text and is stored exactly as given
    (blanks around it are kept), the burst, the priority and the arrival are
    the integers given (a boolean counting as 0 or 1, a missing arrival as
    0), and the process is fresh and valid; [reiniciar] leaves it as it is,
    and [from_dict] on its [to_dict] builds an equal process. *)
Theorem X19_proceso_construido (int_of_str : string -> option Z)
    (v1 v2 v3 : PyVal) (v4 : option PyVal) (p : Proceso) :
  Proceso_init v1 v2 v3 v4 = Ok p ->
  v1 = PyStr (pid p) /\
  as_int v2 = Some (duracion p) /\
  as_int v3 = Some (prioridad p) /\
  as_int (default (PyInt 0) v4) = Some (tiempo_llegada p) /\
  valido p /\
  reiniciar p = p /\
  from_dict int_of_str (to_dict p) = Ok p.
Proof.
  intros Hp.
  assert (valido p) as Hv.
  { apply construido_valido. by exists v1, v2, v3, v4. }
  destruct (Proceso_init_campos _ _ _ _ _ Hp) as (H1 & H2 & H3 & H4 & _).
  assert (reiniciar p = p) as Hre.
  { destruct Hv as (_ & Hr & Hi & Hf). destruct p; simpl in *.
    unfold reiniciar; simpl. by rewrite Hr, Hi, Hf. }
  repeat split; try done; try apply Hv.
  - by destruct v1; simplify_eq/=.
  - rewrite from_dict_to_dict by apply Hv. by rewrite Hre.
Qed.

Lemma X19_proceso_construido_witness :
  exists p,
    Proceso_init (PyStr " P1 ") (PyBool true) (PyInt 2) None = Ok p /\
    pid p = " P1 "%string /\ duracion p = 1 /\ tiempo_llegada p = 0 /\
    from_dict (fun _ => None) (to_dict p) = Ok p.
Proof.
  eexists. split; [reflexivity|].
  destruct (X19_proceso_construido (fun _ => None)
              (PyStr " P1 ") (PyBool true) (PyInt 2) None _ eq_refl)
    as (_ & _ & _ & _ & _ & _ & H).
  do 3 (split; [reflexivity|]). exact H.
Defined.
